(** * StickyCounter: a sticky-at-zero atomic counter

    Shallow embedding of [src/sticky_zero_counter.hpp].

    The class holds one [std::atomic<uint64_t>] word.  Every access in
    the source uses the default (sequentially consistent) memory order,
    so an execution is an interleaving of the atomic operations of the
    running calls.  A method body is embedded as a program over the four
    atomic primitives the source uses ([fetch_add], [fetch_sub], [load],
    [compare_exchange_strong]); the program is run either alone
    ([run]) or by a scheduler that interleaves the atomic operations of
    several threads ([exec]). *)

From Stdlib Require Import ZArith Bool List Lia.
From stdpp Require Import base option gmap fin_maps.
Import ListNotations.

Local Open Scope Z_scope.

(** ** The 64-bit word *)

Module Word.

(** Wrap-around of [uint64_t] arithmetic. *)
Definition modulus : Z := 2 ^ 64.
Definition wrap (z : Z) : Z := z mod modulus.

(** [static constexpr uint64_t is_zero = 1ull << 63;] *)
Definition is_zero : Z := Z.shiftl 1 63.
(** [static constexpr uint64_t help = 1ull << 62;] *)
Definition help : Z := Z.shiftl 1 62.

(** The word is in the range of [uint64_t]. *)
Definition in_range (w : Z) : Prop := 0 <= w < modulus.

(** The three fields the two most significant bits split the word
    into: the dead flag (bit 63), the assist flag (bit 62) and the
    62-bit live count. *)
Definition dead (w : Z) : bool := Z.testbit w 63.
Definition assist (w : Z) : bool := Z.testbit w 62.
Definition live_count (w : Z) : Z := Z.land w (Z.ones 62).

(** C++ conversion of an integer to [bool]. *)
Definition truthy (z : Z) : bool := negb (z =? 0).

End Word.
Import Word.

#[global] Arguments wrap : simpl never.
#[global] Arguments is_zero : simpl never.
#[global] Arguments help : simpl never.
#[global] Arguments dead : simpl never.
#[global] Arguments assist : simpl never.
#[global] Arguments live_count : simpl never.
#[global] Arguments truthy : simpl never.

(** ** Programs over the atomic primitives *)

Section Prog.

Context {A : Type}.

(** A call is a tree of atomic operations on [counter_]; each
    continuation receives what the operation hands back to the
    caller. For [CmpXchg expected desired k] the continuation gets
    the success flag and the updated [expected] (C++ writes the word
    it found into [expected] when the exchange fails). *)
Inductive prog : Type :=
| Ret (a : A)
| FetchAdd (d : Z) (k : Z -> prog)
| FetchSub (d : Z) (k : Z -> prog)
| Load (k : Z -> prog)
| CmpXchg (expected desired : Z) (k : bool -> Z -> prog).

End Prog.
Arguments prog A : clear implicits.

Fixpoint bind {A B : Type} (p : prog A) (f : A -> prog B) : prog B :=
  match p with
  | Ret a => f a
  | FetchAdd d k => FetchAdd d (fun old => bind (k old) f)
  | FetchSub d k => FetchSub d (fun old => bind (k old) f)
  | Load k => Load (fun v => bind (k v) f)
  | CmpXchg e d k => CmpXchg e d (fun ok v => bind (k ok v) f)
  end.

Definition fetch_add (d : Z) : prog Z := FetchAdd d Ret.
Definition fetch_sub (d : Z) : prog Z := FetchSub d Ret.
Definition load : prog Z := Load Ret.
Definition compare_exchange_strong (expected desired : Z) : prog (bool * Z) :=
  CmpXchg expected desired (fun ok v => Ret (ok, v)).

(** The programs form a monad; the methods below are written with
    stdpp's [x ← p; q]. *)
#[global] Instance prog_ret : MRet prog := @Ret.
#[global] Instance prog_bind : MBind prog := λ A B f p, bind p f.

(** ** The three methods *)

(** [counter_{1}] *)
Definition Create : Z := 1.

(** [if (counter_.fetch_add(1) & is_zero) return false; return true;] *)
Definition Increment : prog bool :=
  old ← fetch_add 1;
  if truthy (Z.land old is_zero) then Ret false else Ret true.

(** [if (counter_.fetch_sub(1) == 1) { uint64_t v = 0;
       if (counter_.compare_exchange_strong(v, is_zero)) return true;
       else if ((v | help) && counter_.compare_exchange_strong(v, is_zero))
         return true; }
     return false;] *)
Definition Decrement : prog bool :=
  old ← fetch_sub 1;
  if old =? 1 then
    let v := 0 in
    '(ok, v) ← compare_exchange_strong v is_zero;
    if (ok : bool) then Ret true
    else if truthy (Z.lor v help) then
      '(ok2, v) ← compare_exchange_strong v is_zero;
      if (ok2 : bool) then Ret true else Ret false
    else Ret false
  else Ret false.

(** [uint64_t v = counter_.load();
     if (v == 0) { if (counter_.compare_exchange_strong(v, is_zero | help))
                     return 0; }
     return (v & is_zero) ? 0 : v;] *)
Definition Read : prog Z :=
  v ← load;
  if v =? 0 then
    '(ok, v) ← compare_exchange_strong v (Z.lor is_zero help);
    if (ok : bool) then Ret 0
    else Ret (if truthy (Z.land v is_zero) then 0 else v)
  else Ret (if truthy (Z.land v is_zero) then 0 else v).

(** ** One atomic operation, and a call run without interference *)

(** What an atomic operation did to the word, with the word it found. *)
Inductive action : Type :=
| AFetchAdd (old : Z)
| AFetchSub (old : Z)
| ALoad (v : Z)
| ACas (expected desired : Z) (ok : bool).

(** The head operation of a program applied to the word [w]: the
    action, the rest of the program and the new word.  [None] when the
    program has returned. *)
Definition atomic {A : Type} (p : prog A) (w : Z)
  : option (action * prog A * Z) :=
  match p with
  | Ret _ => None
  | FetchAdd d k => Some (AFetchAdd w, k w, wrap (w + d))
  | FetchSub d k => Some (AFetchSub w, k w, wrap (w - d))
  | Load k => Some (ALoad w, k w, w)
  | CmpXchg e d k =>
      if w =? e then Some (ACas e d true, k true e, d)
      else Some (ACas e d false, k false w, w)
  end.

(** A whole call with no other thread running: result and final word. *)
Fixpoint run {A : Type} (p : prog A) (w : Z) : A * Z :=
  match p with
  | Ret a => (a, w)
  | FetchAdd d k => run (k w) (wrap (w + d))
  | FetchSub d k => run (k w) (wrap (w - d))
  | Load k => run (k w) w
  | CmpXchg e d k => if w =? e then run (k true e) d else run (k false w) w
  end.

(** The atomic operations a call performs when run alone. *)
Fixpoint actions {A : Type} (p : prog A) (w : Z) : list action :=
  match p with
  | Ret _ => []
  | FetchAdd d k => AFetchAdd w :: actions (k w) (wrap (w + d))
  | FetchSub d k => AFetchSub w :: actions (k w) (wrap (w - d))
  | Load k => ALoad w :: actions (k w) w
  | CmpXchg e d k =>
      if w =? e then ACas e d true :: actions (k true e) d
      else ACas e d false :: actions (k false w) w
  end.

(** ** Threads calling the methods concurrently *)

Inductive op : Type := OInc | ODec | ORead.

Inductive retval : Type :=
| RBool (b : bool)
| RWord (w : Z).

(** The body a call of [o] runs. *)
Definition body (o : op) : prog retval :=
  match o with
  | OInc => b ← Increment; Ret (RBool b)
  | ODec => b ← Decrement; Ret (RBool b)
  | ORead => v ← Read; Ret (RWord v)
  end.

(** What an observer of the execution sees: a thread calls a method, a
    running call performs its next atomic operation, a call returns. *)
Inductive label : Type :=
| LCall (t : nat) (o : op)
| LAct (t : nat) (o : op) (a : action)
| LRet (t : nat) (o : op) (r : retval).

(** The shared word, the calls in flight (at most one per thread) and
    the log of the execution so far, newest entry first. *)
Record config : Type := Config {
  counter_ : Z;
  pool : gmap nat (op * prog retval);
  log : list label
}.

Definition init : config := Config Create ∅ [].

(** A scheduler decision: thread [t] calls [o], or thread [t] moves (its
    next atomic operation, or its return when the body is finished). *)
Inductive choice : Type :=
| Call (t : nat) (o : op)
| Run (t : nat).

(** One scheduler decision.  A decision that is not enabled (a call on a
    busy thread, a move of an idle one) leaves the configuration as it is. *)
Definition sched_step (c : config) (ch : choice) : config :=
  match ch with
  | Call t o =>
      match pool c !! t with
      | Some _ => c
      | None =>
          Config (counter_ c) (<[t := (o, body o)]> (pool c))
                 (LCall t o :: log c)
      end
  | Run t =>
      match pool c !! t with
      | None => c
      | Some (o, Ret r) =>
          Config (counter_ c) (delete t (pool c)) (LRet t o r :: log c)
      | Some (o, p) =>
          match atomic p (counter_ c) with
          | Some (a, p', w') =>
              Config w' (<[t := (o, p')]> (pool c)) (LAct t o a :: log c)
          | None => c
          end
      end
  end.

Definition exec (s : list choice) (c : config) : config :=
  fold_left sched_step s c.

(** The log in the order things happened. *)
Definition history (c : config) : list label := rev (log c).

(** *** Quantities read off the log *)

Definition is_add (l : label) : bool :=
  match l with LAct _ _ (AFetchAdd _) => true | _ => false end.
Definition is_sub (l : label) : bool :=
  match l with LAct _ _ (AFetchSub _) => true | _ => false end.

Fixpoint count (f : label -> bool) (l : list label) : Z :=
  match l with
  | [] => 0
  | x :: tl => (if f x then 1 else 0) + count f tl
  end.

Definition is_dec_call (l : label) : bool :=
  match l with LCall _ ODec => true | _ => false end.
Definition is_dec_ret (l : label) : bool :=
  match l with LRet _ ODec _ => true | _ => false end.
Definition is_dec_won (l : label) : bool :=
  match l with LRet _ ODec (RBool true) => true | _ => false end.
Definition is_inc_granted (l : label) : bool :=
  match l with LRet _ OInc (RBool true) => true | _ => false end.

(** Additions and subtractions applied to the word. *)
Definition rmw (l : list label) : Z := count is_add l + count is_sub l.

(** Increments over decrements, with the implicit increment of the
    construction. *)
Definition outstanding (l : list label) : Z :=
  1 + count is_add l - count is_sub l.

(** Ownerships not yet given up: the implicit one and every granted
    [Increment], less the [Decrement] calls made. *)
Definition owned (l : list label) : Z :=
  1 + count is_inc_granted l - count is_dec_call l.

(** Caller contract: no [Decrement] was called without a matching
    [Increment] before it. *)
Fixpoint matched (l : list label) : bool :=
  match l with
  | [] => true
  | x :: tl => (0 <=? owned (x :: tl)) && matched tl
  end.

(** Caller contract: the count never left the 62-bit range. *)
Fixpoint no_overflow (l : list label) : bool :=
  match l with
  | [] => true
  | x :: tl => (outstanding (x :: tl) <? 2 ^ 62) && no_overflow tl
  end.

(** A subtraction has driven the live count to zero. *)
Definition zeroes (l : label) : bool :=
  match l with
  | LAct _ _ (AFetchSub old) => live_count (wrap (old - 1)) =? 0
  | _ => false
  end.
Definition crossed (l : list label) : bool := existsb zeroes l.

(** A [Decrement] won a compare-and-swap that takes the word from dead
    with the assist flag (and a count of zero) to dead alone. *)
Definition assist_won (l : label) : bool :=
  match l with
  | LAct _ ODec (ACas e d true) => (e =? Z.lor is_zero help) && (d =? is_zero)
  | _ => false
  end.

(** *** The moves of the scheduler as a relation *)

Inductive step : config -> config -> Prop :=
| step_call c t o :
    pool c !! t = None ->
    step c (Config (counter_ c) (<[t := (o, body o)]> (pool c))
                   (LCall t o :: log c))
| step_ret c t o r :
    pool c !! t = Some (o, Ret r) ->
    step c (Config (counter_ c) (delete t (pool c)) (LRet t o r :: log c))
| step_act c t o p a p' w' :
    pool c !! t = Some (o, p) ->
    atomic p (counter_ c) = Some (a, p', w') ->
    step c (Config w' (<[t := (o, p')]> (pool c)) (LAct t o a :: log c)).

(** ** What the specification says of [Read] after a failed exchange *)

(** Specification, section 4.1: "zero if the dead flag is now present,
    the live count otherwise", for the refreshed word [v]. *)
Definition Read_refreshed_spec (v : Z) : Z :=
  if dead v then 0 else live_count v.

(** ** A call run with interference *)

(** [run_in p env w]: [p] run from the word [w] while other threads
    change the word between its atomic operations; the [n]-th operation
    of [p] finds the [n]-th word of [env] (when [env] is used up, the
    word [p] itself left). Gives the result, the final word and the
    operations performed. *)
Fixpoint run_in {A : Type} (p : prog A) (env : list Z) (w : Z)
  : A * Z * list action :=
  let found := hd w env in
  let continue p' w' a :=
    let '(r, wf, acts) := run_in p' (tl env) w' in (r, wf, a :: acts) in
  match p with
  | Ret a => (a, w, [])
  | FetchAdd d k => continue (k found) (wrap (found + d)) (AFetchAdd found)
  | FetchSub d k => continue (k found) (wrap (found - d)) (AFetchSub found)
  | Load k => continue (k found) found (ALoad found)
  | CmpXchg e d k =>
      if found =? e then continue (k true e) d (ACas e d true)
      else continue (k false found) found (ACas e d false)
  end.

(** ** Some interleavings *)

Section Races.

(** Thread 0 gives up the initial ownership; between its subtraction
    and its exchanges, thread 1 is granted an [Increment] and then
    gives its ownership up, winning the first exchange; thread 0 then
    fails its first exchange, finds the dead word, and wins its second
    exchange against that very word. *)
Definition two_winners : list choice :=
  [Call 0%nat ODec; Run 0%nat;
   Call 1%nat OInc; Run 1%nat; Run 1%nat;
   Call 1%nat ODec; Run 1%nat; Run 1%nat; Run 1%nat;
   Run 0%nat; Run 0%nat; Run 0%nat].

(** Thread 0 gives up the only ownership; a [Read] finds the zero and
    files the assist request; an [Increment] on the dead counter lands
    between the two exchanges of thread 0, which both fail. *)
Definition no_winner : list choice :=
  [Call 0%nat ODec; Run 0%nat;
   Call 1%nat ORead; Run 1%nat; Run 1%nat; Run 1%nat;
   Run 0%nat;
   Call 2%nat OInc; Run 2%nat; Run 2%nat;
   Run 0%nat; Run 0%nat].

(** Thread 0 gives up the initial ownership and thread 1 is granted an
    [Increment] before thread 0's first exchange, which fails and
    finds the word 1; the second exchange of thread 0 succeeds on it. *)
Definition revived : list choice :=
  [Call 0%nat ODec; Run 0%nat;
   Call 1%nat OInc; Run 1%nat; Run 1%nat;
   Run 0%nat; Run 0%nat; Run 0%nat].

(** After [revived], a [Read] returns 0, thread 1 gives up the
    ownership it was granted, and a second [Read] follows. *)
Definition unstick : list choice :=
  revived ++
  [Call 2%nat ORead; Run 2%nat; Run 2%nat;
   Call 1%nat ODec; Run 1%nat; Run 1%nat;
   Call 2%nat ORead; Run 2%nat; Run 2%nat].

(** A [Read] loads the transient zero of [revived] before thread 1's
    [Increment], and attempts its exchange after thread 1 has given
    its ownership up on the dead word. *)
Definition stale_read : list choice :=
  [Call 0%nat ODec; Run 0%nat;
   Call 2%nat ORead; Run 2%nat;
   Call 1%nat OInc; Run 1%nat; Run 1%nat;
   Run 0%nat; Run 0%nat; Run 0%nat;
   Call 1%nat ODec; Run 1%nat; Run 1%nat;
   Run 2%nat; Run 2%nat].

(** Thread 0 is granted an [Increment] and gives it up again, with a
    [Read] before and after the [Decrement]. *)
Definition shared : list choice :=
  [Call 0%nat OInc; Run 0%nat; Run 0%nat;
   Call 1%nat ORead; Run 1%nat; Run 1%nat;
   Call 0%nat ODec; Run 0%nat; Run 0%nat;
   Call 1%nat ORead; Run 1%nat; Run 1%nat].

(** Thread 0 gives up the only ownership; a [Read] finds the zero and
    files the assist request, which the second exchange of thread 0
    then consumes. *)
Definition assisted : list choice :=
  [Call 0%nat ODec; Run 0%nat;
   Call 1%nat ORead; Run 1%nat; Run 1%nat; Run 1%nat;
   Run 0%nat; Run 0%nat].

(** Thread 0 gives up the only ownership and a [Read] of thread 1
    returns 0 before thread 0 has attempted its exchanges. *)
Definition zero_seen : list choice :=
  [Call 0%nat ODec; Run 0%nat;
   Call 1%nat ORead; Run 1%nat; Run 1%nat; Run 1%nat].

(** On a dead counter: an [Increment] of thread 0 and a [Read] of
    thread 1, interleaved. *)
Definition after_death : list choice :=
  [Call 0%nat OInc; Run 0%nat; Call 1%nat ORead; Run 1%nat;
   Run 0%nat; Run 1%nat].

(** Thread 1 reads 1; thread 0 gives up the only ownership; thread 1
    reads again and returns 0 before thread 0 has attempted its
    exchanges. *)
Definition polled : list choice :=
  [Call 1%nat ORead; Run 1%nat; Run 1%nat;
   Call 0%nat ODec; Run 0%nat;
   Call 1%nat ORead; Run 1%nat; Run 1%nat; Run 1%nat].

(** Thread 1 reads again while thread 0 finishes. *)
Definition read_again : list choice :=
  [Call 1%nat ORead; Run 1%nat; Run 0%nat; Run 1%nat; Run 0%nat; Run 0%nat].

End Races.

(** ** Invariants of the executions *)

(** Where the executions start. *)
Definition reach (s : list choice) : config := exec s init.

(** The calls in flight while no subtraction has reached zero: a call
    has not moved yet, or it is about to return something other than
    the word 0. *)
Definition benign (e : op * prog retval) : Prop :=
  e.2 = body e.1 \/ exists r, e.2 = Ret r /\ r <> RWord 0.

Definition alive_inv (c : config) : Prop :=
  no_overflow (log c) = true -> crossed (log c) = false ->
  counter_ c = outstanding (log c)
  /\ 1 <= counter_ c < 2 ^ 62
  /\ map_Forall (fun _ e => benign e) (pool c)
  /\ forall t o r, In (LRet t o r) (log c) -> r <> RWord 0.

(** The atomic operations the three bodies can perform: additions and
    subtractions of one, loads, exchanges that install [is_zero] and
    report [true] when they succeed, and exchanges from zero that
    install [is_zero | help]. *)
Inductive from_source : prog retval -> Prop :=
| fs_ret r : from_source (Ret r)
| fs_add k : (forall v, from_source (k v)) -> from_source (FetchAdd 1 k)
| fs_sub k : (forall v, from_source (k v)) -> from_source (FetchSub 1 k)
| fs_load k : (forall v, from_source (k v)) -> from_source (Load k)
| fs_dead e k :
    k true e = Ret (RBool true) ->
    (forall v, from_source (k false v)) ->
    from_source (CmpXchg e is_zero k)
| fs_assist k :
    (forall ok v, from_source (k ok v)) ->
    from_source (CmpXchg 0 (Z.lor is_zero help) k).

Definition assist_inv (c : config) : Prop :=
  rmw (log c) < 2 ^ 62 ->
  count assist_won (log c) = 0
  \/ (count assist_won (log c) = 1
      /\ exists k,
          - rmw (log c) <= k <= rmw (log c) /\ counter_ c = is_zero + k).

(** The thread whose exchange to [is_zero] has just succeeded is about
    to return [true]. *)
Definition winner_inv (c : config) : Prop :=
  map_Forall (fun _ e => from_source e.2) (pool c)
  /\ forall t o e tl,
       log c = LAct t o (ACas e is_zero true) :: tl ->
       pool c !! t = Some (o, Ret (RBool true)).

(** ** Executions in which some method is not called *)

Definition no_dec_call (s : list choice) : bool :=
  forallb (fun ch => match ch with Call _ ODec => false | _ => true end) s.

Definition no_inc_call (s : list choice) : bool :=
  forallb (fun ch => match ch with Call _ OInc => false | _ => true end) s.

(** The dead flag is set before every decision of the schedule and
    after the last one. *)
Fixpoint all_dead (s : list choice) (c : config) : bool :=
  match s with
  | [] => dead (counter_ c)
  | ch :: s' => dead (counter_ c) && all_dead s' (sched_step c ch)
  end.

(** What a call returns on a counter that is dead throughout. *)
Definition dead_ret (o : op) : retval :=
  match o with
  | ORead => RWord 0
  | _ => RBool false
  end.

(** The calls in flight on a dead counter on which [Decrement] is not
    called. *)
Definition settled (e : op * prog retval) : Prop :=
  e.1 <> ODec /\ (e.2 = body e.1 \/ e.2 = Ret (dead_ret e.1)).

Definition dead_inv (n : nat) (c : config) : Prop :=
  2 ^ 63 <= counter_ c
  /\ counter_ c + Z.of_nat n < modulus
  /\ map_Forall (fun _ e => settled e) (pool c)
  /\ forall t o r, In (LRet t o r) (log c) -> r = dead_ret o.

(** The [Read] calls of the threads in [F] have seen nothing but a dead
    word. *)
Definition clean (F : nat -> Prop) (l0 : list label) (c : config) : Prop :=
  (forall t p, F t -> pool c !! t = Some (ORead, p) ->
               p = body ORead \/ p = Ret (RWord 0))
  /\ (forall t v, F t -> In (LRet t ORead (RWord v)) (log c) ->
                  In (LRet t ORead (RWord v)) l0 \/ v = 0).

(** ** What the calls return while the counter is alive *)

Definition alive_ret (o : op) (r : retval) : Prop :=
  match o with
  | OInc => r = RBool true
  | ODec => r = RBool false
  | ORead => exists v, r = RWord v /\ 1 <= v < 2 ^ 62
  end.

Definition granted (e : op * prog retval) : Prop :=
  e.2 = body e.1 \/ exists r, e.2 = Ret r /\ alive_ret e.1 r.

Definition alive_ret_inv (c : config) : Prop :=
  no_overflow (log c) = true -> crossed (log c) = false ->
  counter_ c = outstanding (log c)
  /\ 1 <= counter_ c < 2 ^ 62
  /\ map_Forall (fun _ e => granted e) (pool c)
  /\ forall t o r, In (LRet t o r) (log c) -> alive_ret o r.

(** ** The initial ownership given up with no [Increment] around *)

(** The rest of a call once its next atomic operation has found [w]. *)
Definition next (p : prog retval) (w : Z) : prog retval :=
  match atomic p w with
  | Some (_, p', _) => p'
  | None => p
  end.

(** [Decrement] between its subtraction from 1 and its first exchange. *)
Definition dec_first : prog retval := next (body ODec) 1.

(** [Decrement] between its two exchanges, the first one having found
    [is_zero | help]. *)
Definition dec_second : prog retval := next dec_first (Z.lor is_zero help).

(** [Read] between its load of zero and its exchange. *)
Definition read_pending : prog retval := next (body ORead) 0.

(** Where the one [Decrement] stands, by the word. *)
Definition dec_state (w : Z) (p : prog retval) : Prop :=
  (w = 1 /\ p = body ODec)
  \/ (w = 0 /\ p = dec_first)
  \/ (w = Z.lor is_zero help /\ (p = dec_first \/ p = dec_second))
  \/ (w = is_zero /\ p = Ret (RBool true)).

(** Where a [Read] stands. *)
Definition read_state (w : Z) (p : prog retval) : Prop :=
  p = body ORead \/ p = read_pending \/ p = Ret (RWord 1)
  \/ (p = Ret (RWord 0) /\ dead w = true).

Inductive dec_phase (c : config) : Prop :=
| dp_none :
    count is_dec_call (log c) = 0 ->
    counter_ c = 1 ->
    (forall t p, pool c !! t <> Some (ODec, p)) ->
    (forall t r, ~ In (LRet t ODec r) (log c)) ->
    dec_phase c
| dp_running t p :
    count is_dec_call (log c) = 1 ->
    pool c !! t = Some (ODec, p) ->
    dec_state (counter_ c) p ->
    (forall t' p', pool c !! t' = Some (ODec, p') -> t' = t) ->
    (forall t r, ~ In (LRet t ODec r) (log c)) ->
    dec_phase c
| dp_done :
    count is_dec_call (log c) = 1 ->
    counter_ c = is_zero ->
    (forall t p, pool c !! t <> Some (ODec, p)) ->
    (forall t r, In (LRet t ODec r) (log c) -> r = RBool true) ->
    dec_phase c.

Definition sole_inv (c : config) : Prop :=
  count is_dec_call (log c) <= 1 ->
  dec_phase c
  /\ (forall t p, pool c !! t = Some (ORead, p) -> read_state (counter_ c) p)
  /\ (forall t p, pool c !! t <> Some (OInc, p))
  /\ (forall t v, In (LRet t ORead (RWord v)) (log c) ->
                  v = 1 \/ (v = 0 /\ dead (counter_ c) = true)).

(** The [Read] calls the threads in [F] have made since the log was
    [l0] have seen nothing but a dead word: those in flight have not
    moved or are about to return 0, and those that returned since,
    returned 0. *)
Definition fresh (F : nat -> Prop) (l0 : list label) (c : config) : Prop :=
  (forall t p, F t -> pool c !! t = Some (ORead, p) ->
               p = body ORead \/ p = Ret (RWord 0))
  /\ exists l,
      log c = l ++ l0
      /\ forall t v, F t -> In (LRet t ORead (RWord v)) l -> v = 0.

(** * Properties *)

(** ** The word and its fields *)

Section WordFacts.

Lemma is_zero_pow : is_zero = 2 ^ 63.
Proof. reflexivity. Qed.

Lemma help_pow : help = 2 ^ 62.
Proof. reflexivity. Qed.

Lemma land_is_zero (w : Z) :
  Z.land w is_zero = if dead w then is_zero else 0.
Proof.
  unfold dead. apply Z.bits_inj'. intros n Hn.
  rewrite Z.land_spec.
  destruct (Z.eq_dec n 63) as [->|Hne].
  - destruct (Z.testbit w 63); [reflexivity|].
    now rewrite Z.bits_0.
  - assert (Z.testbit is_zero n = false) as ->.
    { rewrite is_zero_pow, Z.pow2_bits_eqb by lia.
      apply Z.eqb_neq. lia. }
    rewrite andb_false_r.
    destruct (Z.testbit w 63).
    + rewrite is_zero_pow, Z.pow2_bits_eqb by lia.
      symmetry. apply Z.eqb_neq. lia.
    + now rewrite Z.bits_0.
Qed.

(** The test [v & is_zero] of the source reads the dead flag. *)
Lemma truthy_land_is_zero (w : Z) : truthy (Z.land w is_zero) = dead w.
Proof.
  rewrite land_is_zero. now destruct (dead w).
Qed.

(** The test [v | help] of the source holds whatever [v] is. *)
Lemma truthy_lor_help (v : Z) : truthy (Z.lor v help) = true.
Proof.
  unfold truthy. apply negb_true_iff, Z.eqb_neq. intros H.
  apply Z.lor_eq_0_iff in H. destruct H as [_ H]. discriminate H.
Qed.

Lemma live_count_mod (w : Z) : live_count w = w mod 2 ^ 62.
Proof. unfold live_count. now rewrite Z.land_ones by lia. Qed.

Lemma live_count_small (w : Z) : 0 <= w < 2 ^ 62 -> live_count w = w.
Proof. intros H. rewrite live_count_mod. now apply Z.mod_small. Qed.

Lemma dead_small (w : Z) : 0 <= w < 2 ^ 63 -> dead w = false.
Proof.
  intros H. unfold dead. apply Z.testbit_false; [lia|].
  now rewrite Z.div_small.
Qed.

Lemma wrap_small (w : Z) : 0 <= w < 2 ^ 64 -> wrap w = w.
Proof. intros H. unfold wrap, modulus. now apply Z.mod_small. Qed.

(** A word with both flags clear is its live count. *)
Lemma clean_word (w : Z) :
  in_range w -> dead w = false -> assist w = false -> live_count w = w.
Proof.
  unfold in_range, modulus, dead, assist. intros Hr Hd Ha.
  apply live_count_small. split; [lia|].
  apply Z.testbit_false in Hd; [|lia].
  apply Z.testbit_false in Ha; [|lia].
  assert (w / 2 ^ 63 = 0) as H63.
  { assert (0 <= w / 2 ^ 63 < 2).
    { split; [apply Z.div_pos; lia|apply Z.div_lt_upper_bound; lia]. }
    rewrite Z.mod_small in Hd by lia. exact Hd. }
  assert (w < 2 ^ 63) as Hlt.
  { pose proof (Z.div_mod w (2 ^ 63) ltac:(lia)) as E.
    pose proof (Z.mod_pos_bound w (2 ^ 63) ltac:(lia)). lia. }
  assert (w / 2 ^ 62 = 0) as H62.
  { assert (0 <= w / 2 ^ 62 < 2).
    { split; [apply Z.div_pos; lia|apply Z.div_lt_upper_bound; lia]. }
    rewrite Z.mod_small in Ha by lia. exact Ha. }
  pose proof (Z.div_mod w (2 ^ 62) ltac:(lia)) as E.
  pose proof (Z.mod_pos_bound w (2 ^ 62) ltac:(lia)). lia.
Qed.

End WordFacts.

(** ** The methods, one call at a time *)

Section Methods.

(** C6. In every state of the word, [Increment] is one atomic
    addition of one (modulo 2^64), and it returns [false] exactly when
    the dead flag is set in the word the addition found; otherwise it
    returns [true]. *)
Theorem Increment_adds_and_reports_dead (w : Z) :
  atomic Increment w = Some (AFetchAdd w, Ret (negb (dead w)), wrap (w + 1))
  /\ run Increment w = (negb (dead w), wrap (w + 1))
  /\ (fst (run Increment w) = false <-> dead w = true)
  /\ (fst (run Increment w) = true <-> dead w = false).
Proof.
  assert (run Increment w = (negb (dead w), wrap (w + 1))) as Hrun.
  { cbn. rewrite truthy_land_is_zero. now destruct (dead w). }
  repeat split.
  - cbn. rewrite truthy_land_is_zero. now destruct (dead w).
  - exact Hrun.
  - rewrite Hrun. cbn. now destruct (dead w).
  - rewrite Hrun. cbn. now destruct (dead w).
  - rewrite Hrun. cbn. now destruct (dead w).
  - rewrite Hrun. cbn. now destruct (dead w).
Qed.

(** C7. When the live count of the word before the subtraction is not
    exactly 1, [Decrement] is one atomic subtraction of one (modulo
    2^64): it returns [false] and performs no compare-and-swap. *)
Theorem Decrement_not_last_owner (w : Z) :
  live_count w <> 1 ->
  atomic Decrement w = Some (AFetchSub w, Ret false, wrap (w - 1))
  /\ run Decrement w = (false, wrap (w - 1))
  /\ actions Decrement w = [AFetchSub w].
Proof.
  intros Hlc.
  assert ((w =? 1) = false) as Hw.
  { apply Z.eqb_neq. intros ->. now apply Hlc. }
  repeat split; cbn; now rewrite Hw.
Qed.

Lemma Decrement_not_last_owner_witness :
  live_count 5 <> 1
  /\ atomic Decrement 5 = Some (AFetchSub 5, Ret false, wrap (5 - 1))
  /\ run Decrement 5 = (false, wrap (5 - 1))
  /\ actions Decrement 5 = [AFetchSub 5].
Proof.
  split; [discriminate|].
  apply (Decrement_not_last_owner 5). discriminate.
Defined.

(** C10. When the initial load of [Read] finds a nonzero word, [Read]
    performs that load and nothing else: the word after the call is
    the word before it. *)
Theorem Read_nonzero_no_write (w : Z) :
  w <> 0 ->
  snd (run Read w) = w
  /\ actions Read w = [ALoad w]
  /\ exists r, atomic Read w = Some (ALoad w, Ret r, w).
Proof.
  intros Hw. apply Z.eqb_neq in Hw.
  repeat split; cbn; rewrite Hw; [reflexivity..|].
  eexists. reflexivity.
Qed.

Lemma Read_nonzero_no_write_witness :
  7 <> 0
  /\ snd (run Read 7) = 7
  /\ actions Read 7 = [ALoad 7]
  /\ exists r, atomic Read 7 = Some (ALoad 7, Ret r, 7).
Proof.
  split; [discriminate|].
  apply (Read_nonzero_no_write 7). discriminate.
Defined.

(** C9. The counter is constructed with live count 1 and both flags
    clear, and the calls Read, Decrement, Read, Increment, Read made
    one after the other on a fresh counter return 1, true, 0, false
    and 0. *)
Theorem linear_scenario :
  live_count Create = 1 /\ dead Create = false /\ assist Create = false
  /\ (let '(r1, w1) := run Read Create in
      let '(d, w2) := run Decrement w1 in
      let '(r2, w3) := run Read w2 in
      let '(i, w4) := run Increment w3 in
      let '(r3, w5) := run Read w4 in
      (r1, d, r2, i, r3) = (1, true, 0, false, 0))
  /\ history
       (exec [Call 0%nat ORead; Run 0%nat; Run 0%nat;
              Call 0%nat ODec; Run 0%nat; Run 0%nat; Run 0%nat;
              Call 0%nat ORead; Run 0%nat; Run 0%nat;
              Call 0%nat OInc; Run 0%nat; Run 0%nat;
              Call 0%nat ORead; Run 0%nat; Run 0%nat] init)
     = [LCall 0 ORead; LAct 0 ORead (ALoad 1); LRet 0 ORead (RWord 1);
        LCall 0 ODec; LAct 0 ODec (AFetchSub 1);
        LAct 0 ODec (ACas 0 is_zero true); LRet 0 ODec (RBool true);
        LCall 0 ORead; LAct 0 ORead (ALoad is_zero); LRet 0 ORead (RWord 0);
        LCall 0 OInc; LAct 0 OInc (AFetchAdd is_zero);
        LRet 0 OInc (RBool false);
        LCall 0 ORead; LAct 0 ORead (ALoad (is_zero + 1));
        LRet 0 ORead (RWord 0)].
Proof.
  repeat split; vm_compute; reflexivity.
Qed.

End Methods.

(** ** Executions *)

Section Executions.

Lemma sched_step_step (c : config) (ch : choice) :
  sched_step c ch = c \/ step c (sched_step c ch).
Proof.
  destruct ch as [t o|t]; cbn.
  - destruct (pool c !! t) eqn:E; [now left|].
    right. now constructor.
  - destruct (pool c !! t) as [[o p]|] eqn:E; [|now left].
    right. destruct p.
    + now constructor.
    + eapply step_act; [exact E|reflexivity].
    + eapply step_act; [exact E|reflexivity].
    + eapply step_act; [exact E|reflexivity].
    + cbn. destruct (counter_ c =? expected) eqn:Ew.
      * eapply step_act; [exact E|]. cbn. now rewrite Ew.
      * eapply step_act; [exact E|]. cbn. now rewrite Ew.
Qed.

(** A property kept by every move holds all along an execution. *)
Lemma exec_invariant (P : config -> Prop) :
  (forall c c', step c c' -> P c -> P c') ->
  forall s c, P c -> P (exec s c).
Proof.
  intros Hstep s. induction s as [|ch s IH]; intros c Hc; [exact Hc|].
  cbn. apply IH.
  destruct (sched_step_step c ch) as [->|H]; [exact Hc|].
  eapply Hstep; eassumption.
Qed.

Lemma count_nonneg (f : label -> bool) (l : list label) : 0 <= count f l.
Proof.
  induction l as [|x l IH]; cbn; [lia|]. destruct (f x); lia.
Qed.

End Executions.

(** ** While no subtraction has reached zero *)

Section Alive.

Lemma atomic_body_OInc (w : Z) :
  atomic (body OInc) w
  = Some (AFetchAdd w, Ret (RBool (negb (dead w))), wrap (w + 1)).
Proof.
  cbn. rewrite truthy_land_is_zero. now destruct (dead w).
Qed.

Lemma atomic_body_ODec_ne (w : Z) :
  w <> 1 ->
  atomic (body ODec) w = Some (AFetchSub w, Ret (RBool false), wrap (w - 1)).
Proof.
  intros H. apply Z.eqb_neq in H. cbn. now rewrite H.
Qed.

Lemma atomic_body_ORead_ne (w : Z) :
  w <> 0 ->
  atomic (body ORead) w
  = Some (ALoad w, Ret (RWord (if dead w then 0 else w)), w).
Proof.
  intros H. apply Z.eqb_neq in H. cbn. rewrite H. cbn.
  now rewrite truthy_land_is_zero.
Qed.

Lemma atomic_body_ODec_action (w : Z) a p' w' :
  atomic (body ODec) w = Some (a, p', w') -> a = AFetchSub w.
Proof. cbn. now intros [= <- _ _]. Qed.

Lemma body_not_Ret (o : op) (r : retval) : body o <> Ret r.
Proof. destruct o; discriminate. Qed.

Lemma no_overflow_cons (x : label) (l : list label) :
  no_overflow (x :: l) = true ->
  outstanding (x :: l) < 2 ^ 62 /\ no_overflow l = true.
Proof.
  cbn [no_overflow]. intros H. apply andb_true_iff in H.
  destruct H as [H1 H2]. apply Z.ltb_lt in H1. now split.
Qed.

Lemma alive_inv_step (c c' : config) :
  step c c' -> alive_inv c -> alive_inv c'.
Proof.
  intros Hstep Hinv. unfold alive_inv in *.
  destruct Hstep as [c t o Hfree|c t o r Hp|c t o p a p' w' Hp Hat];
    cbn [counter_ pool log]; intros Hno Hcr;
    apply no_overflow_cons in Hno; destruct Hno as [Hlt Hno].
  - (* a call *)
    destruct (Hinv Hno Hcr) as (Hw & Hr & Hpool & Hret).
    repeat split; try lia; try exact Hw.
    + apply map_Forall_insert_2; [now left|exact Hpool].
    + intros t' o' r' [Heq|Hin]; [discriminate|]. eauto.
  - (* a return *)
    destruct (Hinv Hno Hcr) as (Hw & Hr & Hpool & Hret).
    repeat split; try lia; try exact Hw.
    + now apply map_Forall_delete.
    + intros t' o' r' [Heq|Hin]; [|eauto].
      injection Heq as <- <- <-.
      destruct (Hpool _ _ Hp) as [Hb|(r' & Hb & Hne)]; cbn in Hb.
      * symmetry in Hb. now apply body_not_Ret in Hb.
      * now injection Hb as ->.
  - (* an atomic operation *)
    assert (crossed (log c) = false) as Hcr'.
    { cbn in Hcr. now apply orb_false_iff in Hcr. }
    destruct (Hinv Hno Hcr') as (Hw & Hr & Hpool & Hret).
    destruct (Hpool _ _ Hp) as [Hb|(r' & Hb & Hne)]; cbn in Hb; subst p;
      [|discriminate].
    unfold outstanding in *. destruct o.
    + rewrite atomic_body_OInc in Hat. injection Hat as <- <- <-.
      cbn [count is_add is_sub] in *.
      rewrite wrap_small by lia.
      repeat split; try lia.
      * apply map_Forall_insert_2; [|exact Hpool].
        right. eexists. split; [reflexivity|discriminate].
      * intros t' o' r' [Heq|Hin]; [discriminate|]. eauto.
    + assert (counter_ c <> 1) as Hne.
      { intros E. rewrite (atomic_body_ODec_action _ _ _ _ Hat), E in Hcr.
        discriminate Hcr. }
      rewrite atomic_body_ODec_ne in Hat by exact Hne.
      injection Hat as <- <- <-.
      cbn [count is_add is_sub] in *.
      rewrite wrap_small by lia.
      repeat split; try lia.
      * apply map_Forall_insert_2; [|exact Hpool].
        right. eexists. split; [reflexivity|discriminate].
      * intros t' o' r' [Heq|Hin]; [discriminate|]. eauto.
    + rewrite atomic_body_ORead_ne in Hat by lia.
      injection Hat as <- <- <-.
      cbn [count is_add is_sub] in *.
      repeat split; try lia.
      * apply map_Forall_insert_2; [|exact Hpool].
        right. eexists. split; [reflexivity|].
        rewrite dead_small by lia. intros E. injection E as E. lia.
      * intros t' o' r' [Heq|Hin]; [discriminate|]. eauto.
Qed.

Lemma alive_inv_init : alive_inv init.
Proof.
  intros _ _. cbn. unfold Create.
  split; [reflexivity|]. split; [lia|].
  split; [apply map_Forall_empty|]. intros t o r [].
Qed.

Lemma alive_inv_reach (s : list choice) : alive_inv (reach s).
Proof.
  unfold reach.
  apply (exec_invariant alive_inv); [exact alive_inv_step|exact alive_inv_init].
Qed.

(** C3. In every state an execution from a fresh counter reaches
    without overflow of the 62-bit count, with a strictly positive
    number of increments over decrements outstanding and no
    subtraction having driven the live count to 0: every [Read] that
    has returned so far returned a nonzero value, and a [Read] made in
    that state returns a nonzero value. *)
Theorem no_premature_death (s : list choice) :
  no_overflow (log (reach s)) = true ->
  crossed (log (reach s)) = false ->
  0 < outstanding (log (reach s)) ->
  (forall t r, In (LRet t ORead (RWord r)) (log (reach s)) -> r <> 0)
  /\ fst (run Read (counter_ (reach s))) <> 0.
Proof.
  intros Hno Hcr _.
  destruct (alive_inv_reach s Hno Hcr) as (Hw & Hr & Hpool & Hret).
  split.
  - intros t r Hin ->. now apply (Hret _ _ _ Hin).
  - assert ((counter_ (reach s) =? 0) = false) as E by (apply Z.eqb_neq; lia).
    cbn. rewrite E. cbn. rewrite truthy_land_is_zero, dead_small by lia.
    lia.
Qed.

Lemma no_premature_death_witness :
  no_overflow (log (reach shared)) = true
  /\ crossed (log (reach shared)) = false
  /\ 0 < outstanding (log (reach shared))
  /\ (forall t r, In (LRet t ORead (RWord r)) (log (reach shared)) -> r <> 0)
  /\ fst (run Read (counter_ (reach shared))) <> 0.
Proof.
  assert (no_overflow (log (reach shared)) = true) as H1
      by (vm_compute; reflexivity).
  assert (crossed (log (reach shared)) = false) as H2
      by (vm_compute; reflexivity).
  assert (0 < outstanding (log (reach shared))) as H3
      by (vm_compute; reflexivity).
  split; [exact H1|]. split; [exact H2|]. split; [exact H3|].
  exact (no_premature_death shared H1 H2 H3).
Defined.

End Alive.

(** ** The assist flag *)

Section Assist.

Lemma from_source_body (o : op) : from_source (body o).
Proof.
  destruct o; cbn.
  - apply fs_add. intros v. cbn. destruct (truthy _); constructor.
  - apply fs_sub. intros v. cbn. destruct (v =? 1); [|constructor].
    cbn. apply fs_dead; [reflexivity|]. intros v'. cbn.
    destruct (truthy (Z.lor v' help)); [|constructor].
    cbn. apply fs_dead; [reflexivity|]. intros v''. constructor.
  - apply fs_load. intros v. cbn. destruct (v =? 0) eqn:E; [|constructor].
    apply Z.eqb_eq in E. subst v.
    cbn. apply fs_assist. intros [] v'; constructor.
Qed.

Lemma lor_flags : Z.lor is_zero help = 2 ^ 63 + 2 ^ 62.
Proof. reflexivity. Qed.

Lemma from_source_atomic (p : prog retval) (w : Z) a p' w' :
  from_source p -> atomic p w = Some (a, p', w') -> from_source p'.
Proof.
  intros Hp Hat. destruct Hp as [r|k Hk|k Hk|k Hk|e k Hwin Hk|k Hk]; cbn in Hat.
  - discriminate.
  - injection Hat as <- <- <-. apply Hk.
  - injection Hat as <- <- <-. apply Hk.
  - injection Hat as <- <- <-. apply Hk.
  - destruct (w =? e); injection Hat as <- <- <-.
    + rewrite Hwin. constructor.
    + apply Hk.
  - destruct (w =? 0); injection Hat as <- <- <-; apply Hk.
Qed.

Lemma winner_inv_step (c c' : config) :
  step c c' -> winner_inv c -> winner_inv c'.
Proof.
  intros Hstep [Hpool Hhead].
  destruct Hstep as [c t o Hfree|c t o r Hp|c t o p a p' w' Hp Hat];
    split; cbn [counter_ pool log].
  - apply map_Forall_insert_2; [apply from_source_body|exact Hpool].
  - intros t' o' e tl Heq. discriminate Heq.
  - now apply map_Forall_delete.
  - intros t' o' e tl Heq. discriminate Heq.
  - apply map_Forall_insert_2; [|exact Hpool].
    eapply from_source_atomic; [exact (Hpool _ _ Hp)|exact Hat].
  - intros t' o' e tl Heq. injection Heq as <- <- -> _.
    rewrite lookup_insert_eq. f_equal. f_equal.
    pose proof (Hpool _ _ Hp) as Hfs. cbn in Hfs.
    destruct Hfs as [r|k Hk|k Hk|k Hk|e' k Hwin Hk|k Hk]; cbn in Hat;
      try discriminate Hat.
    + destruct (counter_ c =? e'); [|discriminate Hat].
      injection Hat as <- <- _. exact Hwin.
    + destruct (counter_ c =? 0); [|discriminate Hat].
      injection Hat as _ E _. vm_compute in E. discriminate E.
Qed.

Lemma winner_inv_reach (s : list choice) : winner_inv (reach s).
Proof.
  unfold reach. apply (exec_invariant winner_inv); [exact winner_inv_step|].
  split; [apply map_Forall_empty|]. intros t o e tl Heq. discriminate Heq.
Qed.

Lemma assist_won_expected (t : nat) (o : op) (e d : Z) (ok : bool) :
  assist_won (LAct t o (ACas e d ok)) = true -> e = Z.lor is_zero help.
Proof.
  destruct o, ok; cbn; try discriminate.
  intros H. apply andb_true_iff in H. destruct H as [H _].
  now apply Z.eqb_eq in H.
Qed.

Lemma assist_won_not_cas (t : nat) (o : op) (v : Z) :
  assist_won (LAct t o (AFetchAdd v)) = false
  /\ assist_won (LAct t o (AFetchSub v)) = false
  /\ assist_won (LAct t o (ALoad v)) = false.
Proof. now destruct o. Qed.

Lemma assist_inv_step (c c' : config) :
  step c c' ->
  map_Forall (fun _ e => from_source e.2) (pool c) ->
  assist_inv c -> assist_inv c'.
Proof.
  intros Hstep Hpool Hinv. unfold assist_inv, rmw in *.
  destruct Hstep as [c t o Hfree|c t o r Hp|c t o p a p' w' Hp Hat];
    cbn [counter_ pool log count is_add is_sub]; intros Hb.
  - cbn [assist_won]. apply Hinv. lia.
  - cbn [assist_won]. apply Hinv. lia.
  - pose proof (count_nonneg is_add (log c)) as Hadd.
    pose proof (count_nonneg is_sub (log c)) as Hsub.
    pose proof (Hpool _ _ Hp) as Hfs. cbn in Hfs.
    destruct Hfs as [r|k Hk|k Hk|k Hk|e k Hwin Hk|k Hk]; cbn in Hat.
    + discriminate.
    + injection Hat as <- _ <-. cbn [is_add is_sub] in *.
      destruct (assist_won_not_cas t o (counter_ c)) as (E1 & E2 & E3).
      rewrite ?E1, ?E2, ?E3.
      destruct Hinv as [H0|(H1 & j & Hj & Hw)]; [lia|now left|].
      right. split; [exact H1|]. exists (j + 1).
      rewrite Hw, is_zero_pow in *. rewrite wrap_small by lia. lia.
    + injection Hat as <- _ <-. cbn [is_add is_sub] in *.
      destruct (assist_won_not_cas t o (counter_ c)) as (E1 & E2 & E3).
      rewrite ?E1, ?E2, ?E3.
      destruct Hinv as [H0|(H1 & j & Hj & Hw)]; [lia|now left|].
      right. split; [exact H1|]. exists (j - 1).
      rewrite Hw, is_zero_pow in *. rewrite wrap_small by lia. lia.
    + injection Hat as <- _ <-. cbn [is_add is_sub] in *.
      destruct (assist_won_not_cas t o (counter_ c)) as (E1 & E2 & E3).
      rewrite ?E1, ?E2, ?E3.
      apply Hinv. lia.
    + destruct (counter_ c =? e) eqn:Ew; injection Hat as <- _ <-;
        cbn [is_add is_sub] in *.
      * apply Z.eqb_eq in Ew.
        destruct (assist_won (LAct t o (ACas e is_zero true))) eqn:Ea.
        -- apply assist_won_expected in Ea.
           destruct Hinv as [H0|(H1 & j & Hj & Hw)]; [lia| |].
           ++ right. split; [lia|]. exists 0. lia.
           ++ exfalso. rewrite Ew, Ea, lor_flags, is_zero_pow in Hw. lia.
        -- destruct Hinv as [H0|(H1 & j & Hj & Hw)]; [lia|left; lia|].
           right. split; [lia|]. exists 0. lia.
      * assert (assist_won (LAct t o (ACas e is_zero false)) = false) as ->
            by now destruct o.
        apply Hinv. lia.
    + assert (forall ok,
                 assist_won (LAct t o (ACas 0 (Z.lor is_zero help) ok)) = false)
        as Hnot by (intros ok; now destruct o, ok).
      destruct (counter_ c =? 0) eqn:Ew; injection Hat as <- _ <-;
        cbn [is_add is_sub] in *; rewrite Hnot.
      * apply Z.eqb_eq in Ew.
        destruct Hinv as [H0|(H1 & j & Hj & Hw)]; [lia|left; lia|].
        exfalso. rewrite Ew, is_zero_pow in Hw. lia.
      * apply Hinv. lia.
Qed.

Lemma assist_inv_reach (s : list choice) : assist_inv (reach s).
Proof.
  assert (winner_inv (reach s) /\ assist_inv (reach s)) as [_ H]; [|exact H].
  unfold reach.
  apply (exec_invariant (fun c => winner_inv c /\ assist_inv c)).
  - intros c c' Hstep [Hw Ha]. split.
    + eapply winner_inv_step; eassumption.
    + eapply assist_inv_step; [exact Hstep|apply Hw|exact Ha].
  - split.
    + split; [apply map_Forall_empty|]. intros t o e tl Heq. discriminate Heq.
    + intros _. now left.
Qed.

End Assist.

(** ** The claims on whole executions *)

Section Claims.

(** C5. The assist flag is not consumed exactly once on the code.  In
    [no_winner], which keeps the caller contract, the subtraction of
    the [Decrement] takes the word from 1 to 0, a [Read] files the
    assist request, and the first exchange of the [Decrement] fails on
    the word [is_zero | help]; an [Increment] on the dead counter then
    lands before the second exchange, which is a compare-and-swap
    against the word the first one found and so fails.  The
    [Decrement] returns [false], no [Decrement] ever wins the exchange
    from [is_zero | help] to [is_zero], and the assist flag is still
    set when every call has returned. *)
Theorem assist_never_consumed :
  run_in Decrement [1; Z.lor is_zero help; Z.lor is_zero help + 1] 1
  = (false, Z.lor is_zero help + 1,
     [AFetchSub 1; ACas 0 is_zero false;
      ACas (Z.lor is_zero help) is_zero false])
  /\ history (reach no_winner)
     = [LCall 0 ODec; LAct 0 ODec (AFetchSub 1);
        LCall 1 ORead; LAct 1 ORead (ALoad 0);
        LAct 1 ORead (ACas 0 (Z.lor is_zero help) true);
        LRet 1 ORead (RWord 0);
        LAct 0 ODec (ACas 0 is_zero false);
        LCall 2 OInc; LAct 2 OInc (AFetchAdd (Z.lor is_zero help));
        LRet 2 OInc (RBool false);
        LAct 0 ODec (ACas (Z.lor is_zero help) is_zero false);
        LRet 0 ODec (RBool false)]
  /\ pool (reach no_winner) = ∅
  /\ matched (log (reach no_winner)) = true
  /\ no_overflow (log (reach no_winner)) = true
  /\ count assist_won (log (reach no_winner)) = 0
  /\ count is_dec_won (log (reach no_winner)) = 0
  /\ counter_ (reach no_winner) = Z.lor is_zero help + 1
  /\ assist (counter_ (reach no_winner)) = true
  /\ dead (counter_ (reach no_winner)) = true.
Proof.
  repeat split; vm_compute; reflexivity.
Qed.

(** X12. A [Decrement] whose subtraction found the word 1 and whose
    first exchange against zero failed on the word [is_zero | help]
    (dead flag and assist flag set, count zero) attempts a second
    exchange from that word to [is_zero] (assist flag clear, dead
    flag set) and returns [true] exactly when it wins it.  In every
    execution from a fresh counter with fewer than 2^62 additions and
    subtractions in all, at most one [Decrement] wins such an
    exchange, and the thread that has just won it is about to return
    [true]. *)
Theorem assist_consumed_once (s : list choice) :
  rmw (log (reach s)) < 2 ^ 62 ->
  (forall w,
      run_in Decrement [1; Z.lor is_zero help; w] 1
      = if w =? Z.lor is_zero help
        then (true, is_zero,
              [AFetchSub 1; ACas 0 is_zero false;
               ACas (Z.lor is_zero help) is_zero true])
        else (false, w,
              [AFetchSub 1; ACas 0 is_zero false;
               ACas (Z.lor is_zero help) is_zero false]))
  /\ (dead (Z.lor is_zero help) = true
      /\ assist (Z.lor is_zero help) = true
      /\ live_count (Z.lor is_zero help) = 0)
  /\ (dead is_zero = true /\ assist is_zero = false)
  /\ count assist_won (log (reach s)) <= 1
  /\ (forall t tl,
         log (reach s)
         = LAct t ODec (ACas (Z.lor is_zero help) is_zero true) :: tl ->
         pool (reach s) !! t = Some (ODec, Ret (RBool true))).
Proof.
  intros Hb. split; [|split; [|split; [|split]]].
  - intros w. change (Z.lor is_zero help) with 13835058055282163712.
    cbn. rewrite truthy_lor_help. cbn.
    destruct (w =? 13835058055282163712); reflexivity.
  - now vm_compute.
  - now vm_compute.
  - destruct (assist_inv_reach s Hb) as [H|[H _]]; lia.
  - intros t tl Hlog.
    destruct (winner_inv_reach s) as [_ Hhead]. eapply Hhead. exact Hlog.
Qed.

Lemma assist_consumed_once_witness :
  rmw (log (reach assisted)) < 2 ^ 62
  /\ count assist_won (log (reach assisted)) = 1
  /\ count assist_won (log (reach assisted)) <= 1
  /\ pool (reach assisted) !! 0%nat = Some (ODec, Ret (RBool true)).
Proof.
  assert (rmw (log (reach assisted)) < 2 ^ 62) as Hb
      by (vm_compute; reflexivity).
  destruct (assist_consumed_once assisted Hb) as (_ & _ & _ & Hle & Hwin).
  split; [exact Hb|]. split; [vm_compute; reflexivity|].
  split; [exact Hle|].
  eapply Hwin. vm_compute. reflexivity.
Defined.

(** C1. The single-winner property fails on the code.  In
    [two_winners] two [Decrement] calls are made against two
    ownerships (the initial one and a granted [Increment]) and both
    return [true]; in [no_winner] the only [Decrement] of the only
    ownership returns [false].  Both executions keep the caller
    contract and leave no call in flight. *)
Theorem single_winner_broken :
  (pool (reach two_winners) = ∅
   /\ matched (log (reach two_winners)) = true
   /\ no_overflow (log (reach two_winners)) = true
   /\ count is_dec_ret (log (reach two_winners))
      = 1 + count is_inc_granted (log (reach two_winners))
   /\ count is_dec_won (log (reach two_winners)) = 2
   /\ history (reach two_winners)
      = [LCall 0 ODec; LAct 0 ODec (AFetchSub 1);
         LCall 1 OInc; LAct 1 OInc (AFetchAdd 0); LRet 1 OInc (RBool true);
         LCall 1 ODec; LAct 1 ODec (AFetchSub 1);
         LAct 1 ODec (ACas 0 is_zero true); LRet 1 ODec (RBool true);
         LAct 0 ODec (ACas 0 is_zero false);
         LAct 0 ODec (ACas is_zero is_zero true); LRet 0 ODec (RBool true)])
  /\ (pool (reach no_winner) = ∅
      /\ matched (log (reach no_winner)) = true
      /\ no_overflow (log (reach no_winner)) = true
      /\ count is_dec_ret (log (reach no_winner))
         = 1 + count is_inc_granted (log (reach no_winner))
      /\ count is_dec_won (log (reach no_winner)) = 0
      /\ history (reach no_winner)
         = [LCall 0 ODec; LAct 0 ODec (AFetchSub 1);
            LCall 1 ORead; LAct 1 ORead (ALoad 0);
            LAct 1 ORead (ACas 0 (Z.lor is_zero help) true);
            LRet 1 ORead (RWord 0);
            LAct 0 ODec (ACas 0 is_zero false);
            LCall 2 OInc; LAct 2 OInc (AFetchAdd (Z.lor is_zero help));
            LRet 2 OInc (RBool false);
            LAct 0 ODec (ACas (Z.lor is_zero help) is_zero false);
            LRet 0 ODec (RBool false)]).
Proof.
  repeat split; vm_compute; reflexivity.
Qed.

(** C4. A [Decrement] whose subtraction took the word from 1 to 0 and
    whose first exchange failed on the clean count 1 left by a
    concurrent [Increment] does not return [false] on the code: its
    second exchange is attempted against the word it found, succeeds
    when the word is still that count, installs the dead flag and the
    call returns [true]. *)
Theorem revived_decrement_returns_true :
  run_in Decrement [1; 1; 1] 1
  = (true, is_zero,
     [AFetchSub 1; ACas 0 is_zero false; ACas 1 is_zero true])
  /\ (dead 1 = false /\ assist 1 = false /\ live_count 1 = 1)
  /\ history (reach revived)
     = [LCall 0 ODec; LAct 0 ODec (AFetchSub 1);
        LCall 1 OInc; LAct 1 OInc (AFetchAdd 0); LRet 1 OInc (RBool true);
        LAct 0 ODec (ACas 0 is_zero false);
        LAct 0 ODec (ACas 1 is_zero true); LRet 0 ODec (RBool true)]
  /\ counter_ (reach revived) = is_zero
  /\ matched (log (reach revived)) = true
  /\ no_overflow (log (reach revived)) = true.
Proof.
  repeat split; vm_compute; reflexivity.
Qed.

(** C2. Stickiness fails on the code.  In [unstick], which keeps the
    caller contract, the dead flag is set after [revived] and a
    [Read] returns 0; the [Decrement] of the ownership thread 1 was
    granted then borrows through the dead flag and clears it, and the
    next [Read] returns 2^63 - 1. *)
Theorem stickiness_broken :
  dead (counter_ (reach revived)) = true
  /\ dead (counter_ (reach unstick)) = false
  /\ matched (log (reach unstick)) = true
  /\ no_overflow (log (reach unstick)) = true
  /\ history (reach unstick)
     = [LCall 0 ODec; LAct 0 ODec (AFetchSub 1);
        LCall 1 OInc; LAct 1 OInc (AFetchAdd 0); LRet 1 OInc (RBool true);
        LAct 0 ODec (ACas 0 is_zero false);
        LAct 0 ODec (ACas 1 is_zero true); LRet 0 ODec (RBool true);
        LCall 2 ORead; LAct 2 ORead (ALoad is_zero); LRet 2 ORead (RWord 0);
        LCall 1 ODec; LAct 1 ODec (AFetchSub is_zero);
        LRet 1 ODec (RBool false);
        LCall 2 ORead; LAct 2 ORead (ALoad (2 ^ 63 - 1));
        LRet 2 ORead (RWord (2 ^ 63 - 1))].
Proof.
  repeat split; vm_compute; reflexivity.
Qed.

(** C8. On the code a [Read] whose exchange failed does not always
    return 0 or the live count of the refreshed word.  In
    [stale_read], which keeps the caller contract, the second exchange
    of thread 0's [Decrement] installs the dead flag on the word 1
    while thread 1 holds a granted ownership; thread 1's [Decrement]
    then subtracts from [is_zero], and the exchange of a [Read] that
    had loaded zero fails on the word 2^63 - 1 (dead flag clear,
    assist flag set, live count 2^62 - 1).  The [Read] returns that
    word, outside the 62-bit range, not its live count. *)
Lemma Read_refreshed_not_live_count :
  history (reach stale_read)
  = [LCall 0 ODec; LAct 0 ODec (AFetchSub 1);
     LCall 2 ORead; LAct 2 ORead (ALoad 0);
     LCall 1 OInc; LAct 1 OInc (AFetchAdd 0); LRet 1 OInc (RBool true);
     LAct 0 ODec (ACas 0 is_zero false);
     LAct 0 ODec (ACas 1 is_zero true); LRet 0 ODec (RBool true);
     LCall 1 ODec; LAct 1 ODec (AFetchSub is_zero); LRet 1 ODec (RBool false);
     LAct 2 ORead (ACas 0 (Z.lor is_zero help) false);
     LRet 2 ORead (RWord (2 ^ 63 - 1))]
  /\ matched (log (reach stale_read)) = true
  /\ no_overflow (log (reach stale_read)) = true
  /\ run_in Read [0; 2 ^ 63 - 1] 0
     = (2 ^ 63 - 1, 2 ^ 63 - 1,
        [ALoad 0; ACas 0 (Z.lor is_zero help) false])
  /\ (dead (2 ^ 63 - 1) = false /\ assist (2 ^ 63 - 1) = true)
  /\ Read_refreshed_spec (2 ^ 63 - 1) = 2 ^ 62 - 1
  /\ fst (fst (run_in Read [0; 2 ^ 63 - 1] 0))
     <> Read_refreshed_spec (2 ^ 63 - 1).
Proof.
  repeat split; try (vm_compute; reflexivity).
  vm_compute. discriminate.
Qed.

(** [Read] case by case, its load finding [w0] and its exchange, if
    one is attempted, finding [w1]: a nonzero [w0] is returned as it is
    when its dead flag is clear (and 0 is returned when it is set),
    with no write; on a zero [w0] a single exchange from zero to
    [is_zero | help] is attempted, and 0 is returned when it
    succeeds; when it fails, 0 is returned if the dead flag is set in
    the refreshed word [w1], and [w1] as it is otherwise, which is the
    live count of [w1] whenever its assist flag is clear. *)
Theorem Read_cases (w0 w1 : Z) :
  in_range w1 ->
  run_in Read [w0; w1] w0
  = (if w0 =? 0 then
       if w1 =? 0 then
         (0, Z.lor is_zero help,
          [ALoad 0; ACas 0 (Z.lor is_zero help) true])
       else
         (if dead w1 then 0 else w1, w1,
          [ALoad 0; ACas 0 (Z.lor is_zero help) false])
     else (if dead w0 then 0 else w0, w0, [ALoad w0]))
  /\ (assist w1 = false ->
      (if dead w1 then 0 else w1) = Read_refreshed_spec w1).
Proof.
  intros Hr. split.
  - cbn. destruct (w0 =? 0) eqn:E0.
    + apply Z.eqb_eq in E0. subst w0. cbn. destruct (w1 =? 0) eqn:E1; cbn.
      * reflexivity.
      * now rewrite truthy_land_is_zero.
    + cbn. now rewrite truthy_land_is_zero.
  - intros Ha. unfold Read_refreshed_spec.
    destruct (dead w1) eqn:Ed; [reflexivity|].
    symmetry. now apply clean_word.
Qed.

Lemma Read_cases_witness :
  in_range 5
  /\ assist 5 = false
  /\ run_in Read [0; 5] 0
     = (5, 5, [ALoad 0; ACas 0 (Z.lor is_zero help) false])
  /\ 5 = Read_refreshed_spec 5.
Proof.
  assert (in_range 5) as Hr by (unfold in_range, modulus; lia).
  destruct (Read_cases 0 5 Hr) as [Hrun Hspec].
  split; [exact Hr|]. split; [reflexivity|].
  split; [exact Hrun|]. apply Hspec. reflexivity.
Defined.

End Claims.

(** ** One call, whatever the other threads do *)

Section Calls.

Lemma run_Increment_eq (w : Z) :
  run Increment w = (negb (dead w), wrap (w + 1)).
Proof.
  cbn. rewrite truthy_land_is_zero. now destruct (dead w).
Qed.

Lemma run_Decrement_eq (w : Z) :
  run Decrement w = if w =? 1 then (true, is_zero) else (false, wrap (w - 1)).
Proof.
  cbn. destruct (w =? 1) eqn:E; [|reflexivity].
  apply Z.eqb_eq in E. now subst w.
Qed.

Lemma run_Read_eq (w : Z) :
  run Read w
  = if w =? 0 then (0, Z.lor is_zero help)
    else (if dead w then 0 else w, w).
Proof.
  cbn. destruct (w =? 0) eqn:E.
  - apply Z.eqb_eq in E. now subst w.
  - cbn. now rewrite truthy_land_is_zero.
Qed.

Lemma run_in_Decrement_eq (w0 w1 w2 : Z) :
  run_in Decrement [w0; w1; w2] w0
  = if w0 =? 1 then
      if w1 =? 0 then (true, is_zero, [AFetchSub 1; ACas 0 is_zero true])
      else if w2 =? w1 then
        (true, is_zero,
         [AFetchSub 1; ACas 0 is_zero false; ACas w1 is_zero true])
      else
        (false, w2,
         [AFetchSub 1; ACas 0 is_zero false; ACas w1 is_zero false])
    else (false, wrap (w0 - 1), [AFetchSub w0]).
Proof.
  cbn. destruct (w0 =? 1) eqn:E0; [|reflexivity].
  apply Z.eqb_eq in E0. subst w0. cbn.
  destruct (w1 =? 0) eqn:E1; [reflexivity|].
  cbn. rewrite truthy_lor_help. cbn.
  destruct (w2 =? w1); reflexivity.
Qed.

Lemma run_in_Read_eq (w0 w1 : Z) :
  run_in Read [w0; w1] w0
  = if w0 =? 0 then
      if w1 =? 0 then
        (0, Z.lor is_zero help, [ALoad 0; ACas 0 (Z.lor is_zero help) true])
      else
        (if dead w1 then 0 else w1, w1,
         [ALoad 0; ACas 0 (Z.lor is_zero help) false])
    else (if dead w0 then 0 else w0, w0, [ALoad w0]).
Proof.
  cbn. destruct (w0 =? 0) eqn:E0.
  - apply Z.eqb_eq in E0. subst w0. cbn. destruct (w1 =? 0) eqn:E1; cbn.
    + reflexivity.
    + now rewrite truthy_land_is_zero.
  - cbn. now rewrite truthy_land_is_zero.
Qed.

(** X1. A [Decrement] running alone returns [true] exactly when the
    word it subtracts from is 1 (a dead word with a stale count of 1
    does not qualify), and the word it then leaves is [is_zero]: dead
    flag set, assist flag clear, count zero. *)
Theorem Decrement_alone_wins_iff_one (w : Z) :
  (fst (run Decrement w) = true <-> w = 1)
  /\ (fst (run Decrement w) = true -> snd (run Decrement w) = is_zero).
Proof.
  rewrite run_Decrement_eq. destruct (w =? 1) eqn:E; cbn.
  - apply Z.eqb_eq in E. now split.
  - apply Z.eqb_neq in E. split; [split|]; [discriminate|tauto|discriminate].
Qed.

(** X2. Whatever words the other threads leave between its atomic
    operations, a call finishes within a fixed number of them:
    [Increment] performs exactly one, [Decrement] between one and
    three, [Read] one or two.  No call retries or waits. *)
Theorem calls_are_wait_free (env : list Z) (w : Z) :
  length (snd (run_in Increment env w)) = 1%nat
  /\ (1 <= length (snd (run_in Decrement env w)) <= 3)%nat
  /\ (1 <= length (snd (run_in Read env w)) <= 2)%nat.
Proof.
  split; [|split];
    repeat (cbn;
            match goal with
            | |- context [if ?b then _ else _] => destruct b
            end);
    cbn; lia.
Qed.

(** X3. A [Decrement] whose three atomic operations find the words
    [w0], [w1] and [w2] returns [true] exactly when its subtraction
    found 1 and either the first exchange found 0 or the second
    exchange found the word the first one had found; whenever it
    returns [true], the word it leaves is [is_zero]. *)
Theorem Decrement_wins_iff (w0 w1 w2 : Z) :
  (fst (fst (run_in Decrement [w0; w1; w2] w0)) = true
   <-> w0 = 1 /\ (w1 = 0 \/ w2 = w1))
  /\ (fst (fst (run_in Decrement [w0; w1; w2] w0)) = true ->
      snd (fst (run_in Decrement [w0; w1; w2] w0)) = is_zero).
Proof.
  rewrite run_in_Decrement_eq.
  destruct (w0 =? 1) eqn:E0;
    [apply Z.eqb_eq in E0|apply Z.eqb_neq in E0].
  - destruct (w1 =? 0) eqn:E1;
      [apply Z.eqb_eq in E1|apply Z.eqb_neq in E1].
    + cbn. tauto.
    + destruct (w2 =? w1) eqn:E2;
        [apply Z.eqb_eq in E2|apply Z.eqb_neq in E2]; cbn.
      * tauto.
      * split; [split|]; [discriminate|tauto|discriminate].
  - cbn. split; [split|]; [discriminate|tauto|discriminate].
Qed.

(** X4. A [Read] whose load finds [w0] and whose exchange, if any,
    finds [w1] returns 0 exactly when the dead flag is set in the word
    its last atomic operation leaves; when it returns something else,
    it returns that word. *)
Theorem Read_zero_iff_dead (w0 w1 : Z) :
  (fst (fst (run_in Read [w0; w1] w0)) = 0
   <-> dead (snd (fst (run_in Read [w0; w1] w0))) = true)
  /\ (fst (fst (run_in Read [w0; w1] w0)) <> 0 ->
      fst (fst (run_in Read [w0; w1] w0))
      = snd (fst (run_in Read [w0; w1] w0))).
Proof.
  rewrite run_in_Read_eq.
  destruct (w0 =? 0) eqn:E0;
    [apply Z.eqb_eq in E0|apply Z.eqb_neq in E0].
  - destruct (w1 =? 0) eqn:E1;
      [apply Z.eqb_eq in E1|apply Z.eqb_neq in E1]; cbn [fst snd].
    + split; [split; reflexivity|]. intros H. now contradict H.
    + destruct (dead w1) eqn:Ed; cbn [fst snd]; rewrite ?Ed;
        (split; [split|]; intros; congruence).
  - destruct (dead w0) eqn:Ed; cbn [fst snd]; rewrite ?Ed;
      (split; [split|]; intros; congruence).
Qed.

(** X5. On a word in range, an [Increment] followed by a [Decrement]
    (no other thread running) restores the word exactly when the word
    was not 0, and a [Decrement] followed by an [Increment] restores it
    exactly when the word was not 1: the two zero crossings are the
    only places where the pair does not cancel. *)
Theorem Increment_Decrement_cancel (w : Z) :
  in_range w ->
  (snd (run Decrement (snd (run Increment w))) = w <-> w <> 0)
  /\ (snd (run Increment (snd (run Decrement w))) = w <-> w <> 1).
Proof.
  unfold in_range, modulus. intros Hr.
  rewrite run_Increment_eq. cbn [snd].
  split.
  - rewrite run_Decrement_eq.
    destruct (Z.eq_dec w (2 ^ 64 - 1)) as [->|Hmax].
    + vm_compute. split; [discriminate|reflexivity].
    + rewrite (wrap_small (w + 1)) by lia.
      destruct (w + 1 =? 1) eqn:E;
        [apply Z.eqb_eq in E|apply Z.eqb_neq in E]; cbn [snd].
      * assert (w = 0) as -> by lia. vm_compute.
        split; [discriminate|intros H; now contradict H].
      * replace (w + 1 - 1) with w by lia.
        rewrite wrap_small by lia. split; [lia|reflexivity].
  - rewrite run_Decrement_eq.
    destruct (w =? 1) eqn:E;
      [apply Z.eqb_eq in E|apply Z.eqb_neq in E]; cbn [snd].
    + subst w. rewrite run_Increment_eq. vm_compute.
      split; [discriminate|intros H; now contradict H].
    + rewrite run_Increment_eq. cbn [snd].
      split; [intros _; exact E|intros _].
      destruct (Z.eq_dec w 0) as [->|Hz]; [reflexivity|].
      rewrite (wrap_small (w - 1)) by lia.
      replace (w - 1 + 1) with w by lia. apply wrap_small. lia.
Qed.

Lemma Increment_Decrement_cancel_witness :
  in_range 7
  /\ (snd (run Decrement (snd (run Increment 7))) = 7 <-> 7 <> 0)
  /\ (snd (run Increment (snd (run Decrement 7))) = 7 <-> 7 <> 1).
Proof.
  assert (in_range 7) as Hr by (unfold in_range, modulus; lia).
  split; [exact Hr|]. exact (Increment_Decrement_cancel 7 Hr).
Defined.

(** X6. A [Read] running alone is idempotent: a second [Read] right
    after the first returns the same value and leaves the same word. *)
Theorem Read_alone_idempotent (w : Z) :
  run Read (snd (run Read w)) = run Read w.
Proof.
  rewrite (run_Read_eq w). destruct (w =? 0) eqn:E; cbn [snd].
  - reflexivity.
  - rewrite run_Read_eq, E. reflexivity.
Qed.

End Calls.

(** ** A counter that is dead *)

Section Dead.

Ltac split4 := split; [|split; [|split]].

Lemma sched_step_call (c : config) (t : nat) (o : op) :
  sched_step c (Call t o) = c
  \/ (pool c !! t = None
      /\ sched_step c (Call t o)
         = Config (counter_ c) (<[t := (o, body o)]> (pool c))
                  (LCall t o :: log c)).
Proof.
  cbn. destruct (pool c !! t); [now left|now right].
Qed.

Lemma sched_step_run (c : config) (t : nat) :
  sched_step c (Run t) = c
  \/ (exists o r,
         pool c !! t = Some (o, Ret r)
         /\ sched_step c (Run t)
            = Config (counter_ c) (delete t (pool c)) (LRet t o r :: log c))
  \/ (exists o p a p' w',
         pool c !! t = Some (o, p)
         /\ atomic p (counter_ c) = Some (a, p', w')
         /\ sched_step c (Run t)
            = Config w' (<[t := (o, p')]> (pool c)) (LAct t o a :: log c)).
Proof.
  cbn. destruct (pool c !! t) as [[o p]|] eqn:E; [|now left].
  right. destruct p.
  - left. now exists o, a.
  - right. now eexists o, _, _, _, _.
  - right. now eexists o, _, _, _, _.
  - right. now eexists o, _, _, _, _.
  - right. cbn. destruct (counter_ c =? expected) eqn:Ew.
    + eexists o, _, _, _, _. split; [reflexivity|]. cbn. now rewrite Ew.
    + eexists o, _, _, _, _. split; [reflexivity|]. cbn. now rewrite Ew.
Qed.

Lemma dead_high (w : Z) : 2 ^ 63 <= w < 2 ^ 64 -> dead w = true.
Proof.
  intros H. unfold dead. apply Z.testbit_true; [lia|].
  assert (w / 2 ^ 63 = 1) as ->; [|reflexivity].
  symmetry. apply (Z.div_unique w (2 ^ 63) 1 (w - 2 ^ 63)); lia.
Qed.

Lemma dead_in_range (w : Z) : in_range w -> dead w = true -> 2 ^ 63 <= w.
Proof.
  unfold in_range, modulus. intros Hr Hd.
  destruct (Z_lt_le_dec w (2 ^ 63)) as [Hlt|Hle]; [|exact Hle].
  rewrite dead_small in Hd by lia. discriminate.
Qed.

Lemma dead_inv_weaken (n : nat) (c : config) :
  dead_inv (S n) c -> dead_inv n c.
Proof.
  intros (H1 & H2 & H3 & H4). split4; try assumption; lia.
Qed.

Lemma dead_inv_step (n : nat) (c : config) (ch : choice) :
  match ch with Call _ ODec => false | _ => true end = true ->
  dead_inv (S n) c -> dead_inv n (sched_step c ch).
Proof.
  intros Hch Hinv. pose proof Hinv as (Hlo & Hhi & Hpool & Hret).
  unfold modulus in *.
  destruct ch as [t o|t].
  - destruct (sched_step_call c t o) as [->|[Hfree ->]];
      [now apply dead_inv_weaken|].
    split4; cbn [counter_ pool log]; unfold modulus; try lia.
    + apply map_Forall_insert_2; [|exact Hpool].
      split; [|now left]. cbn. intros ->. discriminate Hch.
    + intros t' o' r' [Heq|Hin]; [discriminate|]. eauto.
  - destruct (sched_step_run c t)
      as [->|[(o & r & Hp & ->)|(o & p & a & p' & w' & Hp & Hat & ->)]];
      [now apply dead_inv_weaken| |].
    + split4; cbn [counter_ pool log]; unfold modulus; try lia.
      * now apply map_Forall_delete.
      * intros t' o' r' [Heq|Hin]; [|eauto].
        injection Heq as <- <- <-.
        destruct (Hpool _ _ Hp) as [_ [Hb|Hb]]; cbn in Hb.
        -- destruct o; discriminate Hb.
        -- now injection Hb.
    + destruct (Hpool _ _ Hp) as [Hne [Hb|Hb]]; cbn in Hne, Hb; subst p;
        [|discriminate Hat].
      assert (dead (counter_ c) = true) as Hd by (apply dead_high; lia).
      destruct o; [| now contradict Hne |].
      * rewrite atomic_body_OInc, Hd in Hat. injection Hat as <- <- <-.
        rewrite wrap_small by lia.
        split4; cbn [counter_ pool log]; unfold modulus; try lia.
        -- apply map_Forall_insert_2; [|exact Hpool].
           split; [discriminate|now right].
        -- intros t' o' r' [Heq|Hin]; [discriminate|]. eauto.
      * rewrite atomic_body_ORead_ne, Hd in Hat by lia.
        injection Hat as <- <- <-.
        split4; cbn [counter_ pool log]; unfold modulus; try lia.
        -- apply map_Forall_insert_2; [|exact Hpool].
           split; [discriminate|now right].
        -- intros t' o' r' [Heq|Hin]; [discriminate|]. eauto.
Qed.

Lemma dead_inv_exec (s : list choice) (c : config) :
  no_dec_call s = true -> dead_inv (length s) c -> dead_inv 0 (exec s c).
Proof.
  revert c. induction s as [|ch s IH]; intros c Hs Hinv; [exact Hinv|].
  cbn in Hs. apply andb_true_iff in Hs. destruct Hs as [Hch Hs].
  cbn. apply IH; [exact Hs|]. now apply dead_inv_step.
Qed.

(** X7. On a counter whose dead flag is set, with no call in flight, as
    long as [Decrement] is not called and the additions do not wrap the
    64-bit word: under every interleaving of [Increment] and [Read]
    calls the dead flag stays set, every [Increment] returns [false]
    and every [Read] returns 0. *)
Theorem dead_stays_dead (w : Z) (s : list choice) :
  in_range w ->
  dead w = true ->
  no_dec_call s = true ->
  w + Z.of_nat (length s) < modulus ->
  dead (counter_ (exec s (Config w ∅ []))) = true
  /\ (forall t b,
         In (LRet t OInc (RBool b)) (log (exec s (Config w ∅ []))) ->
         b = false)
  /\ (forall t v,
         In (LRet t ORead (RWord v)) (log (exec s (Config w ∅ []))) ->
         v = 0).
Proof.
  intros Hr Hd Hs Hlen.
  assert (dead_inv (length s) (Config w ∅ [])) as Hinv.
  { split4; cbn [counter_ pool log].
    - now apply dead_in_range.
    - exact Hlen.
    - apply map_Forall_empty.
    - intros t o r []. }
  destruct (dead_inv_exec s _ Hs Hinv) as (Hlo & Hhi & _ & Hret).
  unfold modulus in *.
  split; [apply dead_high; lia|]. split.
  - intros t b Hin. apply Hret in Hin. now injection Hin.
  - intros t v Hin. apply Hret in Hin. now injection Hin.
Qed.

Lemma dead_stays_dead_witness :
  in_range is_zero
  /\ dead is_zero = true
  /\ no_dec_call after_death = true
  /\ is_zero + Z.of_nat (length after_death) < modulus
  /\ dead (counter_ (exec after_death (Config is_zero ∅ []))) = true
  /\ (forall t b,
         In (LRet t OInc (RBool b))
            (log (exec after_death (Config is_zero ∅ []))) ->
         b = false)
  /\ (forall t v,
         In (LRet t ORead (RWord v))
            (log (exec after_death (Config is_zero ∅ []))) ->
         v = 0).
Proof.
  assert (in_range is_zero) as H1
      by (vm_compute; split; [discriminate|reflexivity]).
  assert (dead is_zero = true) as H2 by reflexivity.
  assert (no_dec_call after_death = true) as H3 by reflexivity.
  assert (is_zero + Z.of_nat (length after_death) < modulus) as H4
      by (vm_compute; reflexivity).
  split; [exact H1|]. split; [exact H2|]. split; [exact H3|].
  split; [exact H4|].
  exact (dead_stays_dead is_zero after_death H1 H2 H3 H4).
Defined.

Lemma dead_nonzero (w : Z) : dead w = true -> w <> 0.
Proof. intros H ->. discriminate H. Qed.

Lemma clean_step (F : nat -> Prop) (l0 : list label) (c : config)
      (ch : choice) :
  dead (counter_ c) = true -> clean F l0 c -> clean F l0 (sched_step c ch).
Proof.
  intros Hd [Hpool Hret]. destruct ch as [t o|t].
  - destruct (sched_step_call c t o) as [->|[Hfree ->]]; [now split|].
    split; cbn [counter_ pool log].
    + intros t' p Ft Hp. destruct (decide (t = t')) as [<-|Hne].
      * rewrite lookup_insert_eq in Hp. injection Hp as -> <-. now left.
      * rewrite lookup_insert_ne in Hp by exact Hne. eauto.
    + intros t' v Ft [Heq|Hin]; [discriminate|]. eauto.
  - destruct (sched_step_run c t)
      as [->|[(o & r & Hp & ->)|(o & p & a & p' & w' & Hp & Hat & ->)]];
      [now split| |]; split; cbn [counter_ pool log].
    + intros t' p Ft Hp'. destruct (decide (t = t')) as [<-|Hne].
      * rewrite lookup_delete_eq in Hp'. discriminate.
      * rewrite lookup_delete_ne in Hp' by exact Hne. eauto.
    + intros t' v Ft [Heq|Hin]; [|eauto].
      injection Heq as <- -> ->. right.
      destruct (Hpool _ _ Ft Hp) as [Hb|Hb]; [discriminate Hb|].
      now injection Hb.
    + intros t' q Ft Hq. destruct (decide (t = t')) as [<-|Hne].
      * rewrite lookup_insert_eq in Hq. injection Hq as -> <-.
        destruct (Hpool _ _ Ft Hp) as [->| ->]; [|discriminate Hat].
        rewrite atomic_body_ORead_ne, Hd in Hat by now apply dead_nonzero.
        injection Hat as _ <- _. now right.
      * rewrite lookup_insert_ne in Hq by exact Hne. eauto.
    + intros t' v Ft [Heq|Hin]; [discriminate|]. eauto.
Qed.

Lemma clean_exec (F : nat -> Prop) (l0 : list label) (s : list choice) :
  forall c, all_dead s c = true -> clean F l0 c -> clean F l0 (exec s c).
Proof.
  induction s as [|ch s IH]; intros c Hd Hc; [exact Hc|].
  cbn in Hd. apply andb_true_iff in Hd. destruct Hd as [Hd Hs].
  cbn. apply IH; [exact Hs|]. now apply clean_step.
Qed.

(** X8. From any configuration, along any schedule before every
    decision of which the dead flag is set: every [Read] returned by a
    thread that had no call in flight at the start returns 0, whatever
    the other threads are doing. *)
Theorem Read_of_dead_returns_zero (c : config) (s : list choice)
        (t : nat) (v : Z) :
  all_dead s c = true ->
  pool c !! t = None ->
  In (LRet t ORead (RWord v)) (log (exec s c)) ->
  In (LRet t ORead (RWord v)) (log c) \/ v = 0.
Proof.
  intros Hd Hfree Hin.
  assert (clean (fun t' => pool c !! t' = None) (log c) c) as Hc.
  { split.
    - intros t' p Ft Hp. rewrite Ft in Hp. discriminate.
    - intros t' v' _ H. now left. }
  destruct (clean_exec _ _ s c Hd Hc) as [_ Hret]. now apply (Hret t v).
Qed.

Lemma Read_of_dead_returns_zero_witness :
  all_dead [Call 2%nat ORead; Run 2%nat; Run 2%nat] (reach revived) = true
  /\ pool (reach revived) !! 2%nat = None
  /\ In (LRet 2 ORead (RWord 0))
        (log (exec [Call 2%nat ORead; Run 2%nat; Run 2%nat] (reach revived)))
  /\ (In (LRet 2 ORead (RWord 0)) (log (reach revived)) \/ 0 = 0).
Proof.
  assert (all_dead [Call 2%nat ORead; Run 2%nat; Run 2%nat] (reach revived)
          = true) as H1 by (vm_compute; reflexivity).
  assert (pool (reach revived) !! 2%nat = None) as H2
      by (vm_compute; reflexivity).
  assert (In (LRet 2 ORead (RWord 0))
             (log (exec [Call 2%nat ORead; Run 2%nat; Run 2%nat]
                        (reach revived)))) as H3
      by (vm_compute; left; reflexivity).
  split; [exact H1|]. split; [exact H2|]. split; [exact H3|].
  exact (Read_of_dead_returns_zero _ _ _ _ H1 H2 H3).
Defined.

End Dead.

(** ** The results of the calls while the counter is alive *)

Section AliveResults.

Lemma alive_ret_inv_step (c c' : config) :
  step c c' -> alive_ret_inv c -> alive_ret_inv c'.
Proof.
  intros Hstep Hinv. unfold alive_ret_inv in *.
  destruct Hstep as [c t o Hfree|c t o r Hp|c t o p a p' w' Hp Hat];
    cbn [counter_ pool log]; intros Hno Hcr;
    apply no_overflow_cons in Hno; destruct Hno as [Hlt Hno].
  - destruct (Hinv Hno Hcr) as (Hw & Hr & Hpool & Hret).
    split; [exact Hw|]. split; [lia|]. split.
    + apply map_Forall_insert_2; [now left|exact Hpool].
    + intros t' o' r' [Heq|Hin]; [discriminate|]. eauto.
  - destruct (Hinv Hno Hcr) as (Hw & Hr & Hpool & Hret).
    split; [exact Hw|]. split; [lia|]. split.
    + now apply map_Forall_delete.
    + intros t' o' r' [Heq|Hin]; [|eauto].
      injection Heq as <- <- <-.
      destruct (Hpool _ _ Hp) as [Hb|(r' & Hb & Hok)]; cbn in Hb.
      * symmetry in Hb. now apply body_not_Ret in Hb.
      * cbn in Hok. now injection Hb as ->.
  - assert (crossed (log c) = false) as Hcr'.
    { cbn in Hcr. now apply orb_false_iff in Hcr. }
    destruct (Hinv Hno Hcr') as (Hw & Hr & Hpool & Hret).
    destruct (Hpool _ _ Hp) as [Hb|(r' & Hb & Hok)]; cbn in Hb; subst p;
      [|discriminate].
    unfold outstanding in *. destruct o.
    + rewrite atomic_body_OInc, dead_small in Hat by lia.
      injection Hat as <- <- <-.
      cbn [count is_add is_sub] in *.
      rewrite wrap_small by lia.
      split; [lia|]. split; [lia|]. split.
      * apply map_Forall_insert_2; [|exact Hpool].
        right. eexists. split; reflexivity.
      * intros t' o' r' [Heq|Hin]; [discriminate|]. eauto.
    + assert (counter_ c <> 1) as Hne.
      { intros E. rewrite (atomic_body_ODec_action _ _ _ _ Hat), E in Hcr.
        discriminate Hcr. }
      rewrite atomic_body_ODec_ne in Hat by exact Hne.
      injection Hat as <- <- <-.
      cbn [count is_add is_sub] in *.
      rewrite wrap_small by lia.
      split; [lia|]. split; [lia|]. split.
      * apply map_Forall_insert_2; [|exact Hpool].
        right. eexists. split; reflexivity.
      * intros t' o' r' [Heq|Hin]; [discriminate|]. eauto.
    + rewrite atomic_body_ORead_ne, dead_small in Hat by lia.
      injection Hat as <- <- <-.
      cbn [count is_add is_sub] in *.
      split; [lia|]. split; [lia|]. split.
      * apply map_Forall_insert_2; [|exact Hpool].
        right. eexists. split; [reflexivity|]. cbn. eexists. now split.
      * intros t' o' r' [Heq|Hin]; [discriminate|]. eauto.
Qed.

Lemma alive_ret_inv_reach (s : list choice) : alive_ret_inv (reach s).
Proof.
  unfold reach. apply (exec_invariant alive_ret_inv).
  - exact alive_ret_inv_step.
  - intros _ _. cbn. unfold Create.
    split; [reflexivity|]. split; [lia|].
    split; [apply map_Forall_empty|]. intros t o r [].
Qed.

(** X9. In every state an execution from a fresh counter reaches
    without overflow of the 62-bit count and with no subtraction
    having driven the live count to 0: the word is exactly the number
    of additions less the number of subtractions plus one, with both
    flags clear; every [Increment] that has returned returned [true],
    every [Decrement] returned [false], and every [Read] returned a
    count between 1 and 2^62 - 1. *)
Theorem alive_results (s : list choice) :
  no_overflow (log (reach s)) = true ->
  crossed (log (reach s)) = false ->
  counter_ (reach s) = outstanding (log (reach s))
  /\ (dead (counter_ (reach s)) = false
      /\ assist (counter_ (reach s)) = false)
  /\ (forall t r, In (LRet t OInc r) (log (reach s)) -> r = RBool true)
  /\ (forall t r, In (LRet t ODec r) (log (reach s)) -> r = RBool false)
  /\ (forall t r, In (LRet t ORead r) (log (reach s)) ->
                  exists v, r = RWord v /\ 1 <= v < 2 ^ 62).
Proof.
  intros Hno Hcr.
  destruct (alive_ret_inv_reach s Hno Hcr) as (Hw & Hr & _ & Hret).
  split; [exact Hw|]. split; [|split; [|split]].
  - split; [apply dead_small; lia|].
    unfold assist. apply Z.testbit_false; [lia|].
    now rewrite Z.div_small by lia.
  - intros t r Hin. exact (Hret _ _ _ Hin).
  - intros t r Hin. exact (Hret _ _ _ Hin).
  - intros t r Hin. exact (Hret _ _ _ Hin).
Qed.

Lemma alive_results_witness :
  no_overflow (log (reach shared)) = true
  /\ crossed (log (reach shared)) = false
  /\ counter_ (reach shared) = outstanding (log (reach shared))
  /\ (forall t r, In (LRet t OInc r) (log (reach shared)) -> r = RBool true).
Proof.
  assert (no_overflow (log (reach shared)) = true) as H1
      by (vm_compute; reflexivity).
  assert (crossed (log (reach shared)) = false) as H2
      by (vm_compute; reflexivity).
  destruct (alive_results shared H1 H2) as (Hw & _ & Hinc & _).
  split; [exact H1|]. split; [exact H2|]. split; [exact Hw|exact Hinc].
Defined.

End AliveResults.

(** ** The initial ownership given up with no [Increment] around *)

Section SoleOwner.

Lemma atomic_dec_body :
  atomic (body ODec) 1 = Some (AFetchSub 1, dec_first, 0).
Proof. reflexivity. Qed.

Lemma atomic_dec_first_zero :
  atomic dec_first 0 = Some (ACas 0 is_zero true, Ret (RBool true), is_zero).
Proof. reflexivity. Qed.

Lemma atomic_dec_first_assist :
  atomic dec_first (Z.lor is_zero help)
  = Some (ACas 0 is_zero false, dec_second, Z.lor is_zero help).
Proof. reflexivity. Qed.

Lemma atomic_dec_second_assist :
  atomic dec_second (Z.lor is_zero help)
  = Some (ACas (Z.lor is_zero help) is_zero true, Ret (RBool true), is_zero).
Proof. reflexivity. Qed.

Lemma atomic_read_body_zero :
  atomic (body ORead) 0 = Some (ALoad 0, read_pending, 0).
Proof. reflexivity. Qed.

Lemma atomic_read_pending (w : Z) :
  atomic read_pending w
  = if w =? 0
    then Some (ACas 0 (Z.lor is_zero help) true, Ret (RWord 0),
               Z.lor is_zero help)
    else Some (ACas 0 (Z.lor is_zero help) false,
               Ret (RWord (if dead w then 0 else w)), w).
Proof.
  cbn. destruct (w =? 0); [reflexivity|].
  cbn. now rewrite truthy_land_is_zero.
Qed.

Lemma read_state_mono (w w' : Z) (p : prog retval) :
  (dead w = true -> dead w' = true) -> read_state w p -> read_state w' p.
Proof.
  intros Hd [H|[H|[H|[H1 H2]]]].
  - now left.
  - right. now left.
  - right. right. now left.
  - right. right. right. split; [exact H1|now apply Hd].
Qed.

Lemma dec_state_words (w : Z) (p : prog retval) :
  dec_state w p ->
  w = 1 \/ w = 0 \/ w = Z.lor is_zero help \/ w = is_zero.
Proof.
  intros [[H _]|[[H _]|[[H _]|[H _]]]]; tauto.
Qed.

Lemma dec_phase_words (c : config) :
  dec_phase c ->
  counter_ c = 1 \/ counter_ c = 0
  \/ counter_ c = Z.lor is_zero help \/ counter_ c = is_zero.
Proof.
  intros [H0 Hw _ _|t p H1 Hp Hs _ _|H1 Hw _ _].
  - now left.
  - eapply dec_state_words. exact Hs.
  - right. right. now right.
Qed.

(** What a [Read] makes of the words the counter can hold. *)
Lemma read_result_state (w : Z) :
  w <> 0 ->
  w = 1 \/ w = 0 \/ w = Z.lor is_zero help \/ w = is_zero ->
  read_state w (Ret (RWord (if dead w then 0 else w))).
Proof.
  intros Hne [-> | [-> | [-> | ->]]].
  - right. right. now left.
  - now contradict Hne.
  - right. right. right. now split.
  - right. right. right. now split.
Qed.

(** The [Decrement] in flight is not touched by a move of a thread
    that runs another method, as long as the word changes, if at all,
    from zero to [is_zero | help]. *)
Lemma dec_phase_frame (c c' : config) :
  count is_dec_call (log c') = count is_dec_call (log c) ->
  (counter_ c' = counter_ c
   \/ (counter_ c = 0 /\ counter_ c' = Z.lor is_zero help)) ->
  (forall t p, pool c' !! t = Some (ODec, p) <-> pool c !! t = Some (ODec, p)) ->
  (forall t r, In (LRet t ODec r) (log c') <-> In (LRet t ODec r) (log c)) ->
  dec_phase c -> dec_phase c'.
Proof.
  intros Hcnt Hw Hpool Hlog [H0 Hone Hno Hret|t p H1 Hp Hs Huniq Hret|H1 Hz Hno Hret].
  - apply dp_none.
    + congruence.
    + destruct Hw as [-> | [E _]]; [exact Hone|]. rewrite Hone in E. discriminate.
    + intros t p Hp. apply Hpool in Hp. now apply Hno in Hp.
    + intros t r Hin. apply Hlog in Hin. now apply Hret in Hin.
  - apply (dp_running c' t p).
    + congruence.
    + now apply Hpool.
    + destruct Hw as [-> | [E ->]]; [exact Hs|].
      rewrite E in Hs.
      destruct Hs as [[H _]|[[_ ->]|[[H _]|[H _]]]]; try discriminate H.
      right. right. left. split; [reflexivity|now left].
    + intros t' p' Hp'. apply Hpool in Hp'. eauto.
    + intros t' r Hin. apply Hlog in Hin. now apply Hret in Hin.
  - apply dp_done.
    + congruence.
    + destruct Hw as [-> | [E _]]; [exact Hz|]. rewrite Hz in E. discriminate.
    + intros t p Hp. apply Hpool in Hp. now apply Hno in Hp.
    + intros t r Hin. apply Hlog in Hin. now apply Hret in Hin.
Qed.

Lemma insert_other_method (m : gmap nat (op * prog retval)) (t : nat)
      (o o' : op) (q : prog retval) :
  o <> o' ->
  (forall p, m !! t <> Some (o', p)) ->
  forall t' p, <[t := (o, q)]> m !! t' = Some (o', p) <-> m !! t' = Some (o', p).
Proof.
  intros Hne Hno t' p. destruct (decide (t = t')) as [<-|Hd].
  - rewrite lookup_insert_eq. split.
    + intros [= E _]. now contradict Hne.
    + intros H. now apply Hno in H.
  - now rewrite lookup_insert_ne.
Qed.

Lemma delete_other_method (m : gmap nat (op * prog retval)) (t : nat)
      (o' : op) :
  (forall p, m !! t <> Some (o', p)) ->
  forall t' p, delete t m !! t' = Some (o', p) <-> m !! t' = Some (o', p).
Proof.
  intros Hno t' p. destruct (decide (t = t')) as [<-|Hd].
  - rewrite lookup_delete_eq. split; [discriminate|].
    intros H. now apply Hno in H.
  - now rewrite lookup_delete_ne.
Qed.

Lemma count_cons (f : label -> bool) (x : label) (l : list label) :
  count f (x :: l) = (if f x then 1 else 0) + count f l.
Proof. reflexivity. Qed.

Lemma sole_inv_step (c : config) (ch : choice) :
  match ch with Call _ OInc => false | _ => true end = true ->
  sole_inv c -> sole_inv (sched_step c ch).
Proof.
  intros Hch Hinv.
  pose proof (count_nonneg is_dec_call (log c)) as Hnn.
  destruct ch as [t o|t].
  - destruct (sched_step_call c t o) as [->|[Hfree ->]]; [exact Hinv|].
    intros Hcnt. cbn [log] in Hcnt. rewrite count_cons in Hcnt.
    destruct o; [discriminate Hch| |]; cbn [is_dec_call] in Hcnt.
    + (* the Decrement is called *)
      destruct Hinv as (Hph & Hrd & Hni & Hrr); [lia|].
      destruct Hph as [H0 Hone Hno Hret|t0 p H1 _ _ _ _|H1 _ _ _]; [|lia|lia].
      split; [|split; [|split]]; cbn [counter_ pool log].
      * apply (dp_running _ t (body ODec)); cbn [counter_ pool log].
        -- rewrite count_cons. cbn [is_dec_call]. lia.
        -- apply lookup_insert_eq.
        -- left. now split.
        -- intros t' p' Hp'. destruct (decide (t = t')) as [E|E]; [now symmetry|].
           rewrite lookup_insert_ne in Hp' by exact E. now apply Hno in Hp'.
        -- intros t' r [Heq|Hin]; [discriminate|]. now apply Hret in Hin.
      * intros t' p Hp. apply insert_other_method in Hp;
          [eauto|discriminate|]. intros q. rewrite Hfree. discriminate.
      * intros t' p Hp. apply insert_other_method in Hp;
          [now apply Hni in Hp|discriminate|].
        intros q. rewrite Hfree. discriminate.
      * intros t' v [Heq|Hin]; [discriminate|]. eauto.
    + (* a Read is called *)
      destruct Hinv as (Hph & Hrd & Hni & Hrr); [lia|].
      split; [|split; [|split]]; cbn [counter_ pool log].
      * eapply dec_phase_frame; [| | | |exact Hph]; cbn [counter_ pool log].
        -- now rewrite count_cons.
        -- now left.
        -- apply insert_other_method; [discriminate|].
           intros q. rewrite Hfree. discriminate.
        -- intros t' r. split; [intros [Heq|Hin]; [discriminate|exact Hin]|].
           intros Hin. now right.
      * intros t' p Hp. destruct (decide (t = t')) as [<-|E].
        -- rewrite lookup_insert_eq in Hp. injection Hp as <-. now left.
        -- rewrite lookup_insert_ne in Hp by exact E. eauto.
      * intros t' p Hp. apply insert_other_method in Hp;
          [now apply Hni in Hp|discriminate|].
        intros q. rewrite Hfree. discriminate.
      * intros t' v [Heq|Hin]; [discriminate|]. eauto.
  - destruct (sched_step_run c t)
      as [->|[(o & r & Hp & ->)|(o & p & a & p' & w' & Hp & Hat & ->)]];
      [exact Hinv| |].
    + (* a return *)
      intros Hcnt. cbn [log] in Hcnt. rewrite count_cons in Hcnt.
      cbn [is_dec_call] in Hcnt.
      destruct Hinv as (Hph & Hrd & Hni & Hrr); [lia|].
      destruct o; [now apply Hni in Hp| |].
      * (* of the Decrement *)
        destruct Hph as [H0 Hone Hno Hret|t0 p0 H1 Hp0 Hs Huniq Hret|H1 Hz Hno Hret];
          [now apply Hno in Hp| |now apply Hno in Hp].
        pose proof (Huniq _ _ Hp) as ->. rewrite Hp in Hp0.
        injection Hp0 as <-.
        destruct Hs as [[_ H]|[[_ H]|[[_ [H|H]]|[Hw H]]]]; try discriminate H.
        injection H as ->.
        split; [|split; [|split]]; cbn [counter_ pool log].
        -- apply dp_done; cbn [counter_ pool log].
           ++ now rewrite count_cons.
           ++ exact Hw.
           ++ intros t' p' Hp'. destruct (decide (t0 = t')) as [<-|E].
              ** rewrite lookup_delete_eq in Hp'. discriminate.
              ** rewrite lookup_delete_ne in Hp' by exact E.
                 apply Huniq in Hp'. now symmetry in Hp'.
           ++ intros t' r [Heq|Hin]; [now injection Heq|].
              now apply Hret in Hin.
        -- intros t' p' Hp'. apply delete_other_method in Hp'; [eauto|].
           intros q. rewrite Hp. discriminate.
        -- intros t' p' Hp'. apply delete_other_method in Hp';
             [now apply Hni in Hp'|]. intros q. rewrite Hp. discriminate.
        -- intros t' v [Heq|Hin]; [discriminate|]. eauto.
      * (* of a Read *)
        split; [|split; [|split]]; cbn [counter_ pool log].
        -- eapply dec_phase_frame; [| | | |exact Hph]; cbn [counter_ pool log].
           ++ now rewrite count_cons.
           ++ now left.
           ++ apply delete_other_method. intros q. rewrite Hp. discriminate.
           ++ intros t' r'. split; [intros [Heq|Hin]; [discriminate|exact Hin]|].
              intros Hin. now right.
        -- intros t' p' Hp'. destruct (decide (t = t')) as [<-|E].
           ++ rewrite lookup_delete_eq in Hp'. discriminate.
           ++ rewrite lookup_delete_ne in Hp' by exact E. eauto.
        -- intros t' p' Hp'. apply delete_other_method in Hp';
             [now apply Hni in Hp'|]. intros q. rewrite Hp. discriminate.
        -- intros t' v [Heq|Hin]; [|eauto].
           injection Heq as <- ->.
           destruct (Hrd _ _ Hp) as [H|[H|[H|[H Hd]]]]; try discriminate H.
           ++ injection H as ->. now left.
           ++ injection H as ->. right. now split.
    + (* an atomic operation *)
      intros Hcnt. cbn [log] in Hcnt. rewrite count_cons in Hcnt.
      cbn [is_dec_call] in Hcnt.
      destruct Hinv as (Hph & Hrd & Hni & Hrr); [lia|].
      pose proof (dec_phase_words c Hph) as Hwords.
      destruct o; [now apply Hni in Hp| |].
      * (* of the Decrement *)
        destruct Hph as [H0 Hone Hno Hret|t0 p0 H1 Hp0 Hs Huniq Hret|H1 Hz Hno Hret];
          [now apply Hno in Hp| |now apply Hno in Hp].
        pose proof (Huniq _ _ Hp) as ->. rewrite Hp in Hp0.
        injection Hp0 as <-.
        assert (dec_state w' p'
                /\ (dead (counter_ c) = true -> dead w' = true)) as [Hs' Hd].
        { destruct Hs as [[Hw ->]|[[Hw ->]|[[Hw [->| ->]]|[Hw ->]]]];
            rewrite Hw in Hat.
          - rewrite atomic_dec_body in Hat. injection Hat as _ <- <-.
            rewrite Hw. split; [|discriminate]. right. left. now split.
          - rewrite atomic_dec_first_zero in Hat. injection Hat as _ <- <-.
            rewrite Hw. split; [|discriminate]. right. right. right. now split.
          - rewrite atomic_dec_first_assist in Hat. injection Hat as _ <- <-.
            split; [|reflexivity]. right. right. left. split; [reflexivity|].
            now right.
          - rewrite atomic_dec_second_assist in Hat. injection Hat as _ <- <-.
            split; [|reflexivity]. right. right. right. now split.
          - discriminate Hat. }
        split; [|split; [|split]]; cbn [counter_ pool log].
        -- apply (dp_running _ t0 p'); cbn [counter_ pool log].
           ++ now rewrite count_cons.
           ++ apply lookup_insert_eq.
           ++ exact Hs'.
           ++ intros t' q Hq. destruct (decide (t0 = t')) as [E|E];
                [now symmetry|].
              rewrite lookup_insert_ne in Hq by exact E. eauto.
           ++ intros t' r [Heq|Hin]; [discriminate|]. now apply Hret in Hin.
        -- intros t' q Hq. apply insert_other_method in Hq;
             [|discriminate|intros q'; rewrite Hp; discriminate].
           eapply read_state_mono; [exact Hd|eauto].
        -- intros t' q Hq. apply insert_other_method in Hq;
             [now apply Hni in Hq|discriminate|].
           intros q'. rewrite Hp. discriminate.
        -- intros t' v [Heq|Hin]; [discriminate|].
           destruct (Hrr _ _ Hin) as [H|[H1' H2]]; [now left|right; auto].
      * (* of a Read *)
        assert ((w' = counter_ c
                 \/ (counter_ c = 0 /\ w' = Z.lor is_zero help))
                /\ read_state w' p'
                /\ (dead (counter_ c) = true -> dead w' = true))
          as (Hw' & Hs' & Hd).
        { destruct (Hrd _ _ Hp) as [->|[->|[->|[-> _]]]];
            [| |discriminate Hat|discriminate Hat].
          - destruct (Z.eq_dec (counter_ c) 0) as [E|E].
            + rewrite E in Hat. rewrite atomic_read_body_zero in Hat.
              injection Hat as _ <- <-. rewrite E.
              split; [now left|]. split; [|auto]. right. now left.
            + rewrite atomic_body_ORead_ne in Hat by exact E.
              injection Hat as _ <- <-.
              split; [now left|]. split; [|auto].
              now apply read_result_state.
          - rewrite atomic_read_pending in Hat.
            destruct (counter_ c =? 0) eqn:E;
              [apply Z.eqb_eq in E|apply Z.eqb_neq in E];
              injection Hat as _ <- <-.
            + split; [now right|]. split; [|reflexivity].
              right. right. right. now split.
            + split; [now left|]. split; [|auto].
              now apply read_result_state. }
        split; [|split; [|split]]; cbn [counter_ pool log].
        -- eapply dec_phase_frame; [| | | |exact Hph]; cbn [counter_ pool log].
           ++ now rewrite count_cons.
           ++ exact Hw'.
           ++ apply insert_other_method; [discriminate|].
              intros q. rewrite Hp. discriminate.
           ++ intros t' r'. split; [intros [Heq|Hin]; [discriminate|exact Hin]|].
              intros Hin. now right.
        -- intros t' q Hq. destruct (decide (t = t')) as [<-|E].
           ++ rewrite lookup_insert_eq in Hq. now injection Hq as <-.
           ++ rewrite lookup_insert_ne in Hq by exact E.
              eapply read_state_mono; [exact Hd|eauto].
        -- intros t' q Hq. apply insert_other_method in Hq;
             [now apply Hni in Hq|discriminate|].
           intros q'. rewrite Hp. discriminate.
        -- intros t' v [Heq|Hin]; [discriminate|].
           destruct (Hrr _ _ Hin) as [H|[H1' H2]]; [now left|right; auto].
Qed.

Lemma sole_inv_exec (s : list choice) :
  forall c, no_inc_call s = true -> sole_inv c -> sole_inv (exec s c).
Proof.
  induction s as [|ch s IH]; intros c Hs Hinv; [exact Hinv|].
  cbn in Hs. apply andb_true_iff in Hs. destruct Hs as [Hch Hs].
  cbn. apply IH; [exact Hs|]. now apply sole_inv_step.
Qed.

Lemma sole_inv_reach (s : list choice) :
  no_inc_call s = true -> sole_inv (reach s).
Proof.
  intros Hs. apply sole_inv_exec; [exact Hs|]. intros _.
  split; [|split; [|split]]; cbn [counter_ pool log init].
  - apply dp_none; cbn [counter_ pool log init]; try reflexivity.
    + intros t p. rewrite lookup_empty. discriminate.
    + intros t r [].
  - intros t p. rewrite lookup_empty. discriminate.
  - intros t p. rewrite lookup_empty. discriminate.
  - intros t v [].
Qed.

(** X10. In every execution from a fresh counter in which [Increment]
    is not called and [Decrement] is called at most once (the initial
    ownership is the only one): the [Decrement], when it returns,
    returns [true], whether or not a [Read] filed the assist request in
    between; every [Read] returns 1 or 0; once a [Read] has returned 0
    the dead flag is set; and the word is 1, 0, [is_zero | help] or
    [is_zero]. *)
Theorem sole_owner_release (s : list choice) :
  no_inc_call s = true ->
  count is_dec_call (log (reach s)) <= 1 ->
  (forall t r, In (LRet t ODec r) (log (reach s)) -> r = RBool true)
  /\ (forall t v, In (LRet t ORead (RWord v)) (log (reach s)) ->
                  v = 1 \/ v = 0)
  /\ (forall t, In (LRet t ORead (RWord 0)) (log (reach s)) ->
                dead (counter_ (reach s)) = true)
  /\ (counter_ (reach s) = 1 \/ counter_ (reach s) = 0
      \/ counter_ (reach s) = Z.lor is_zero help
      \/ counter_ (reach s) = is_zero).
Proof.
  intros Hs Hcnt.
  destruct (sole_inv_reach s Hs Hcnt) as (Hph & _ & _ & Hrr).
  split; [|split; [|split]].
  - intros t r Hin.
    destruct Hph as [_ _ _ Hret|t0 p _ _ _ _ Hret|_ _ _ Hret];
      [now apply Hret in Hin|now apply Hret in Hin|eauto].
  - intros t v Hin. destruct (Hrr _ _ Hin) as [H|[H _]]; tauto.
  - intros t Hin. destruct (Hrr _ _ Hin) as [H|[_ H]]; [discriminate H|exact H].
  - now apply dec_phase_words.
Qed.

Lemma sole_owner_release_witness :
  no_inc_call (zero_seen ++ read_again) = true
  /\ count is_dec_call (log (reach (zero_seen ++ read_again))) <= 1
  /\ In (LRet 0 ODec (RBool true)) (log (reach (zero_seen ++ read_again)))
  /\ (forall t r,
         In (LRet t ODec r) (log (reach (zero_seen ++ read_again))) ->
         r = RBool true).
Proof.
  assert (no_inc_call (zero_seen ++ read_again) = true) as H1
      by (vm_compute; reflexivity).
  assert (count is_dec_call (log (reach (zero_seen ++ read_again))) <= 1)
    as H2 by (vm_compute; discriminate).
  destruct (sole_owner_release _ H1 H2) as (Hdec & _).
  split; [exact H1|]. split; [exact H2|]. split; [|exact Hdec].
  vm_compute. left. reflexivity.
Defined.

Lemma exec_app (s1 s2 : list choice) (c : config) :
  exec (s1 ++ s2) c = exec s2 (exec s1 c).
Proof. apply fold_left_app. Qed.

Lemma sched_step_log (c : config) (ch : choice) :
  exists l, log (sched_step c ch) = l ++ log c.
Proof.
  destruct (sched_step_step c ch) as [->|H]; [now exists []|].
  destruct H; cbn [log]; eexists [_]; reflexivity.
Qed.

Lemma exec_log (s : list choice) :
  forall c, exists l, log (exec s c) = l ++ log c.
Proof.
  induction s as [|ch s IH]; intros c; [now exists []|].
  change (exec (ch :: s) c) with (exec s (sched_step c ch)).
  destruct (IH (sched_step c ch)) as [l1 ->].
  destruct (sched_step_log c ch) as [l2 ->].
  exists (l1 ++ l2). now rewrite app_assoc.
Qed.

Lemma count_app (f : label -> bool) (l1 l2 : list label) :
  count f (l1 ++ l2) = count f l1 + count f l2.
Proof.
  induction l1 as [|x l1 IH]; [reflexivity|].
  cbn [app count]. rewrite IH. lia.
Qed.

Lemma sole_all_dead (s2 : list choice) :
  forall s1 t0,
    no_inc_call (s1 ++ s2) = true ->
    count is_dec_call (log (reach (s1 ++ s2))) <= 1 ->
    In (LRet t0 ORead (RWord 0)) (log (reach s1)) ->
    all_dead s2 (reach s1) = true.
Proof.
  assert (forall s t0,
             no_inc_call s = true ->
             count is_dec_call (log (reach s)) <= 1 ->
             In (LRet t0 ORead (RWord 0)) (log (reach s)) ->
             dead (counter_ (reach s)) = true) as Hdead.
  { intros s t0 Hs Hcnt Hin.
    destruct (sole_inv_reach s Hs Hcnt) as (_ & _ & _ & Hrr).
    destruct (Hrr _ _ Hin) as [H|[_ H]]; [discriminate H|exact H]. }
  induction s2 as [|ch s2 IH]; intros s1 t0 Hs Hcnt Hin.
  - rewrite app_nil_r in Hs, Hcnt. cbn. eapply Hdead; eassumption.
  - cbn [all_dead]. apply andb_true_iff. split.
    + apply (Hdead s1 t0); [| |exact Hin].
      * unfold no_inc_call in *. rewrite forallb_app in Hs.
        now apply andb_true_iff in Hs.
      * unfold reach in Hcnt. rewrite exec_app in Hcnt.
        destruct (exec_log (ch :: s2) (exec s1 init)) as [l El].
        rewrite El, count_app in Hcnt.
        pose proof (count_nonneg is_dec_call l). unfold reach. lia.
    + replace (sched_step (reach s1) ch) with (reach (s1 ++ [ch]))
        by (unfold reach; now rewrite exec_app).
      apply (IH (s1 ++ [ch]) t0).
      * now rewrite <- app_assoc.
      * now rewrite <- app_assoc.
      * unfold reach. rewrite exec_app.
        destruct (exec_log [ch] (exec s1 init)) as [l ->].
        apply in_or_app. now right.
Qed.

Lemma fresh_step (F : nat -> Prop) (l0 : list label) (c : config)
      (ch : choice) :
  dead (counter_ c) = true -> fresh F l0 c -> fresh F l0 (sched_step c ch).
Proof.
  intros Hd [Hpool (l & Hl & Hret)]. destruct ch as [t o|t].
  - destruct (sched_step_call c t o) as [->|[Hfree ->]];
      [split; [exact Hpool|now exists l]|].
    split; cbn [counter_ pool log].
    + intros t' p Ft Hp. destruct (decide (t = t')) as [<-|Hne].
      * rewrite lookup_insert_eq in Hp. injection Hp as -> <-. now left.
      * rewrite lookup_insert_ne in Hp by exact Hne. eauto.
    + exists (LCall t o :: l). split; [now rewrite Hl|].
      intros t' v Ft [Heq|Hin]; [discriminate|]. eauto.
  - destruct (sched_step_run c t)
      as [->|[(o & r & Hp & ->)|(o & p & a & p' & w' & Hp & Hat & ->)]];
      [split; [exact Hpool|now exists l]| |]; split; cbn [counter_ pool log].
    + intros t' p Ft Hp'. destruct (decide (t = t')) as [<-|Hne].
      * rewrite lookup_delete_eq in Hp'. discriminate.
      * rewrite lookup_delete_ne in Hp' by exact Hne. eauto.
    + exists (LRet t o r :: l). split; [now rewrite Hl|].
      intros t' v Ft [Heq|Hin]; [|eauto].
      injection Heq as <- -> ->.
      destruct (Hpool _ _ Ft Hp) as [Hb|Hb]; [discriminate Hb|].
      now injection Hb.
    + intros t' q Ft Hq. destruct (decide (t = t')) as [<-|Hne].
      * rewrite lookup_insert_eq in Hq. injection Hq as -> <-.
        destruct (Hpool _ _ Ft Hp) as [->| ->]; [|discriminate Hat].
        rewrite atomic_body_ORead_ne, Hd in Hat by now apply dead_nonzero.
        injection Hat as _ <- _. now right.
      * rewrite lookup_insert_ne in Hq by exact Hne. eauto.
    + exists (LAct t o a :: l). split; [now rewrite Hl|].
      intros t' v Ft [Heq|Hin]; [discriminate|]. eauto.
Qed.

Lemma fresh_exec (F : nat -> Prop) (l0 : list label) (s : list choice) :
  forall c, all_dead s c = true -> fresh F l0 c -> fresh F l0 (exec s c).
Proof.
  induction s as [|ch s IH]; intros c Hd Hc; [exact Hc|].
  cbn in Hd. apply andb_true_iff in Hd. destruct Hd as [Hd Hs].
  cbn. apply IH; [exact Hs|]. now apply fresh_step.
Qed.

(** X11. In every execution from a fresh counter in which [Increment]
    is not called and [Decrement] is called at most once: once a
    [Read] has returned 0 (in the log of [s1]), every [Read] that
    returns in the part of the log added afterwards (by [s2]), made by
    a thread that had no call in flight at that moment, returns 0.
    The thread whose [Read] returned 0 is such a thread when [s1] ends
    with that return, whatever it had read before. *)
Theorem sole_owner_sticky (s1 s2 : list choice) (t0 : nat) :
  no_inc_call (s1 ++ s2) = true ->
  count is_dec_call (log (reach (s1 ++ s2))) <= 1 ->
  In (LRet t0 ORead (RWord 0)) (log (reach s1)) ->
  exists l,
    log (reach (s1 ++ s2)) = l ++ log (reach s1)
    /\ forall t v,
        pool (reach s1) !! t = None ->
        In (LRet t ORead (RWord v)) l -> v = 0.
Proof.
  intros Hs Hcnt Hzero.
  pose proof (sole_all_dead s2 s1 t0 Hs Hcnt Hzero) as Hd.
  assert (fresh (fun t' => pool (reach s1) !! t' = None)
                (log (reach s1)) (reach s1)) as Hc.
  { split.
    - intros t' p Ft Hp. rewrite Ft in Hp. discriminate.
    - exists []. split; [reflexivity|]. intros t' v' _ []. }
  destruct (fresh_exec _ _ s2 _ Hd Hc) as [_ (l & Hl & Hret)].
  exists l. split; [|exact Hret].
  unfold reach. rewrite exec_app. exact Hl.
Qed.

Lemma sole_owner_sticky_witness :
  no_inc_call (polled ++ read_again) = true
  /\ count is_dec_call (log (reach (polled ++ read_again))) <= 1
  /\ In (LRet 1 ORead (RWord 0)) (log (reach polled))
  /\ In (LRet 1 ORead (RWord 1)) (log (reach polled))
  /\ pool (reach polled) !! 1%nat = None
  /\ log (reach (polled ++ read_again))
     = [LRet 0 ODec (RBool true);
        LAct 0 ODec (ACas (Z.lor is_zero help) is_zero true);
        LRet 1 ORead (RWord 0);
        LAct 0 ODec (ACas 0 is_zero false);
        LAct 1 ORead (ALoad (Z.lor is_zero help));
        LCall 1 ORead] ++ log (reach polled)
  /\ exists l,
      log (reach (polled ++ read_again)) = l ++ log (reach polled)
      /\ forall t v,
          pool (reach polled) !! t = None ->
          In (LRet t ORead (RWord v)) l -> v = 0.
Proof.
  assert (no_inc_call (polled ++ read_again) = true) as H1
      by (vm_compute; reflexivity).
  assert (count is_dec_call (log (reach (polled ++ read_again))) <= 1)
    as H2 by (vm_compute; discriminate).
  assert (In (LRet 1 ORead (RWord 0)) (log (reach polled))) as H3
      by (vm_compute; left; reflexivity).
  split; [exact H1|]. split; [exact H2|]. split; [exact H3|].
  split; [vm_compute; tauto|].
  split; [vm_compute; reflexivity|].
  split; [vm_compute; reflexivity|].
  exact (sole_owner_sticky polled read_again 1%nat H1 H2 H3).
Defined.

End SoleOwner.
